(** * pwnlib.log: a shallow embedding of the logging layer

    The development follows [src/pwnlib/log.py].  Python objects that are
    mutated in place ([Progress] instances, the two class-level sets of
    [Logger]) live in an explicit store that every method threads through;
    a method that can raise returns a [result].  The underlying [logging]
    logger is an external collaborator: a call of its [log] method is
    recorded, in order, in the [sink] of the store. *)

From Stdlib Require Import Ascii QArith Lqa.
From stdpp Require Import gmap strings pretty list fin_maps.

Open Scope string_scope.
Open Scope list_scope.

(** ** Values, keyword arguments, calls on the sink *)

(** Object identity of a [Progress] instance. *)
Definition loc := nat.

(** The Python values that travel through the logging calls. *)
Inductive PyVal :=
| VNone
| VStr (s : string)
| VInt (z : Z)
| VRef (l : loc).

Global Instance PyVal_eq_dec : EqDecision PyVal.
Proof. solve_decision. Defined.

(** [**kwargs] as the methods of [log.py] use it: the ['extra'] dictionary
    (absent or present), the ['level'] keyword that [Logger.progress] and
    [Logger.indented] pop, and every other keyword, passed along untouched. *)
Record Kwargs := mkKwargs {
  kw_extra : option (gmap string PyVal);
  kw_level : option Z;
  kw_other : gmap string PyVal
}.

Definition no_kwargs : Kwargs :=
  {| kw_extra := None; kw_level := None; kw_other := ∅ |}.

(** [d.setdefault(k, v)] *)
Definition setdefault (k : string) (v : PyVal) (d : gmap string PyVal)
  : gmap string PyVal :=
  match d !! k with
  | Some _ => d
  | None => <[k := v]> d
  end.

(** A proxy [Logger]: it only holds the underlying [logging] logger, which
    is identified by its name. *)
Record Logger := mkLogger { Logger__logger : string }.

(** One call [self._logger.log(level, msg, *args, **kwargs)]. *)
Record LogCall := mkLogCall {
  lc_logger : string;
  lc_level : Z;
  lc_msg : string;
  lc_args : list PyVal;
  lc_kwargs : Kwargs
}.

(** The attributes that [logging] copies from ['extra'] onto the record. *)
Definition lc_attr (k : string) (c : LogCall) : option PyVal :=
  kw_extra (lc_kwargs c) ≫= fun extra => extra !! k.

Definition lc_msgtype : LogCall → option PyVal := lc_attr "pwnlib_msgtype".
Definition lc_progress : LogCall → option PyVal := lc_attr "pwnlib_progress".

(** Levels of the [logging] module. *)
Definition NOTSET : Z := 0.
Definition DEBUG : Z := 10.
Definition INFO : Z := 20.
Definition WARNING : Z := 30.
Definition ERROR : Z := 40.
Definition CRITICAL : Z := 50.

(** ** The store *)

(** [time.time()] readings: seconds since the epoch, as rationals. *)
Definition time := Q.
Bind Scope Q_scope with time.

Record Progress := mkProgress {
  _logger : Logger;
  _msg : string;
  _status : string;
  _level : Z;
  _stopped : bool;
  last_status : time
}.

Record World := mkWorld {
  heap : gmap loc Progress;
  _one_time_infos : gset string;
  _one_time_warnings : gset string;
  sink : list LogCall
}.

Definition initial_world : World :=
  {| heap := ∅; _one_time_infos := ∅; _one_time_warnings := ∅; sink := [] |}.

(** ** Exceptions and the state-and-error monad *)

Inductive exn :=
| PwnlibException (m : string)
| TypeError (m : string)
| ValueError (m : string)
| ReferenceError (l : loc)
| OtherException (m : string).

Inductive result (A : Type) :=
| Ok (a : A)
| Raise (e : exn).
Arguments Ok {A} a.
Arguments Raise {A} e.

Definition M (A : Type) : Type := World → result A * World.

Definition ret {A} (a : A) : M A := fun w => (Ok a, w).

Definition bind {A B} (m : M A) (k : A → M B) : M B :=
  fun w => match m w with
           | (Ok a, w') => k a w'
           | (Raise e, w') => (Raise e, w')
           end.

Definition raise {A} (e : exn) : M A := fun w => (Raise e, w).

Definition lift {A} (r : result A) : M A := fun w => (r, w).

Notation "'let!' x := m 'in' k" := (bind m (fun x => k))
  (at level 10, x name, m at level 100, k at level 200).
Notation "'do!' m 'in' k" := (bind m (fun _ => k))
  (at level 10, m at level 100, k at level 200).

(** Reading and writing the attributes of the object at [self]. *)
Definition getself (self : loc) : M Progress :=
  fun w => match heap w !! self with
           | Some p => (Ok p, w)
           | None => (Raise (ReferenceError self), w)
           end.

Definition set_heap (h : gmap loc Progress) (w : World) : World :=
  {| heap := h; _one_time_infos := _one_time_infos w;
     _one_time_warnings := _one_time_warnings w; sink := sink w |}.

Definition setself (self : loc) (f : Progress → Progress) : M unit :=
  fun w => (Ok tt, set_heap (alter f self (heap w)) w).

Definition set_last_status (t : time) (p : Progress) : Progress :=
  {| _logger := _logger p; _msg := _msg p; _status := _status p;
     _level := _level p; _stopped := _stopped p; last_status := t |}.

Definition set_stopped (b : bool) (p : Progress) : Progress :=
  {| _logger := _logger p; _msg := _msg p; _status := _status p;
     _level := _level p; _stopped := b; last_status := last_status p |}.

(** The underlying logger's [log]: the call is recorded. *)
Definition emit (c : LogCall) (w : World) : World :=
  {| heap := heap w; _one_time_infos := _one_time_infos w;
     _one_time_warnings := _one_time_warnings w; sink := sink w ++ [c] |}.

Definition logging_log (name : string) (level : Z) (msg : string)
    (args : list PyVal) (kwargs : Kwargs) : M unit :=
  fun w => (Ok tt, emit (mkLogCall name level msg args kwargs) w).

(** Truth value of a Python string. *)
Definition truthy (s : string) : bool :=
  match s with
  | EmptyString => false
  | String _ _ => true
  end.

(** ** Logger._log *)

Definition Logger__log (self : Logger) (level : Z) (msg : string)
    (args : list PyVal) (kwargs : Kwargs) (msgtype : PyVal) (progress : PyVal)
  : M unit :=
  let extra := default ∅ (kw_extra kwargs) in
  let extra := setdefault "pwnlib_msgtype" msgtype extra in
  let extra := setdefault "pwnlib_progress" progress extra in
  let kwargs := {| kw_extra := Some extra; kw_level := kw_level kwargs;
                   kw_other := kw_other kwargs |} in
  logging_log (Logger__logger self) level msg args kwargs.

(** ** Progress *)

Definition Progress__log (self : loc) (status : string) (args : list PyVal)
    (kwargs : Kwargs) (msgtype : PyVal) : M unit :=
  let! p := getself self in
  if _stopped p then ret tt
  else
    let msg := _msg p in
    let msg := if truthy msg && truthy status then msg +:+ ": " else msg in
    let msg := msg +:+ status in
    Logger__log (_logger p) (_level p) msg args kwargs msgtype (VRef self).

(** [time.time()] is an input of [status]: the reading is the argument
    [now].  The throttle compares it with [last_status]. *)
Definition Progress_status (self : loc) (now : time) (status : string)
    (args : list PyVal) (kwargs : Kwargs) : M unit :=
  let! p := getself self in
  if Qlt_le_dec (1 # 10) (now - last_status p)%Q then
    do! setself self (set_last_status now) in
    Progress__log self status args kwargs (VStr "status")
  else ret tt.

Definition Progress_success (self : loc) (status : string)
    (args : list PyVal) (kwargs : Kwargs) : M unit :=
  do! Progress__log self status args kwargs (VStr "success") in
  setself self (set_stopped true).

Definition Progress_failure (self : loc) (status : string)
    (args : list PyVal) (kwargs : Kwargs) : M unit :=
  do! Progress__log self status args kwargs (VStr "failure") in
  setself self (set_stopped true).

(** Allocation of the new object, then the body of [__init__]. *)
Definition Progress___init__ (logger : Logger) (msg status : string)
    (level : Z) (args : list PyVal) (kwargs : Kwargs) : M loc :=
  fun w =>
    let self : loc := fresh (dom (heap w)) in
    let p := {| _logger := logger; _msg := msg; _status := status;
                _level := level; _stopped := false; last_status := 0%Q |} in
    let w0 := set_heap (<[self := p]> (heap w)) w in
    (do! Progress__log self status args kwargs (VStr "status") in
     do! setself self (set_last_status 0%Q) in
     ret self) w0.

Definition Progress___enter__ (self : loc) : M loc := ret self.

(** [exc_typ] is [None] when no exception is in flight.  The method
    returns [None], so an exception in flight keeps propagating. *)
Definition Progress___exit__ (self : loc) (exc_typ : option exn) : M unit :=
  match exc_typ with
  | None => Progress_success self "Done" [] no_kwargs
  | Some _ => Progress_failure self "Failed" [] no_kwargs
  end.

(** [with p: body] *)
Definition with_Progress {A} (self : loc) (body : loc → M A) : M A :=
  let! p := Progress___enter__ self in
  fun w =>
    match body p w with
    | (Ok a, w1) =>
        (do! Progress___exit__ self None in ret a) w1
    | (Raise e, w1) =>
        (do! Progress___exit__ self (Some e) in raise e) w1
    end.

(** ** Logger *)

Definition pop_level (kwargs : Kwargs) : Kwargs :=
  {| kw_extra := kw_extra kwargs; kw_level := None;
     kw_other := kw_other kwargs |}.

Definition Logger_progress (self : Logger) (message status : string)
    (args : list PyVal) (kwargs : Kwargs) : M loc :=
  let level := default INFO (kw_level kwargs) in
  Progress___init__ self message status level args (pop_level kwargs).

Definition Logger_indented (self : Logger) (message : string)
    (args : list PyVal) (kwargs : Kwargs) : M unit :=
  let level := default INFO (kw_level kwargs) in
  Logger__log self level message args (pop_level kwargs) (VStr "indented") VNone.

Definition Logger_success (self : Logger) (message : string)
    (args : list PyVal) (kwargs : Kwargs) : M unit :=
  Logger__log self INFO message args kwargs (VStr "success") VNone.

Definition Logger_failure (self : Logger) (message : string)
    (args : list PyVal) (kwargs : Kwargs) : M unit :=
  Logger__log self INFO message args kwargs (VStr "failure") VNone.

Definition Logger_debug (self : Logger) (message : string)
    (args : list PyVal) (kwargs : Kwargs) : M unit :=
  Logger__log self DEBUG message args kwargs (VStr "debug") VNone.

Definition Logger_info (self : Logger) (message : string)
    (args : list PyVal) (kwargs : Kwargs) : M unit :=
  Logger__log self INFO message args kwargs (VStr "info") VNone.

Definition Logger_warning (self : Logger) (message : string)
    (args : list PyVal) (kwargs : Kwargs) : M unit :=
  Logger__log self WARNING message args kwargs (VStr "warning") VNone.

Definition Logger_critical (self : Logger) (message : string)
    (args : list PyVal) (kwargs : Kwargs) : M unit :=
  Logger__log self CRITICAL message args kwargs (VStr "critical") VNone.

Definition Logger_log (self : Logger) (level : Z) (message : string)
    (args : list PyVal) (kwargs : Kwargs) : M unit :=
  Logger__log self level message args kwargs VNone VNone.

(** The class attributes [Logger._one_time_infos] and
    [Logger._one_time_warnings]: no instance ever rebinds them, so every
    [Logger] reads and updates the same two sets. *)
Definition one_time_infos_add (m : string) : M unit :=
  fun w => (Ok tt, {| heap := heap w;
                      _one_time_infos := {[ m ]} ∪ _one_time_infos w;
                      _one_time_warnings := _one_time_warnings w;
                      sink := sink w |}).

Definition one_time_warnings_add (m : string) : M unit :=
  fun w => (Ok tt, {| heap := heap w;
                      _one_time_infos := _one_time_infos w;
                      _one_time_warnings := {[ m ]} ∪ _one_time_warnings w;
                      sink := sink w |}).

Section Percent.

(** [message % args], Python's string formatting operator applied to the
    tuple of positional arguments.  It is a primitive of the language;
    the methods below hold for whatever it computes, so it is a
    parameter here.  [py_percent] further down implements a fragment. *)
Variable percent : string → list PyVal → result string.

Definition Logger_info_once (self : Logger) (message : string)
    (args : list PyVal) (kwargs : Kwargs) : M unit :=
  let! m := lift (percent message args) in
  fun w =>
    if decide (m ∈ _one_time_infos w) then (Ok tt, w)
    else
      (do! one_time_infos_add m in
       Logger__log self INFO message args kwargs (VStr "info_once") VNone) w.

Definition Logger_warning_once (self : Logger) (message : string)
    (args : list PyVal) (kwargs : Kwargs) : M unit :=
  let! m := lift (percent message args) in
  fun w =>
    if decide (m ∈ _one_time_warnings w) then (Ok tt, w)
    else
      (do! one_time_warnings_add m in
       Logger__log self WARNING message args kwargs (VStr "warning_once") VNone) w.

Definition Logger_error {A} (self : Logger) (message : string)
    (args : list PyVal) (kwargs : Kwargs) : M A :=
  do! Logger__log self ERROR message args kwargs (VStr "error") VNone in
  let! m := lift (percent message args) in
  raise (PwnlibException m).

End Percent.

(** ** The level of the root logger *)

(** The ['pwnlib'] logger after [closure()] has replaced its class: the
    [level] property reads and writes the attribute [_level]. *)
Record RootLogger := mkRootLogger { root__level : Z }.

Definition setter (self : RootLogger) (level : Z) : RootLogger :=
  {| root__level := level |}.

(** [context.log_level] is read from the [context] module on every access;
    it is the argument [log_level].  [x or y] on an integer [x] is [x]
    unless [x] is zero. *)
Definition getter (log_level : Z) (self : RootLogger) : Z :=
  if Z.eqb (root__level self) 0 then Z.min log_level INFO
  else root__level self.

(** The module leaves the logger in this state: no explicit level. *)
Definition rootlogger : RootLogger := setter (mkRootLogger NOTSET) NOTSET.

(** [LogRecord.getMessage] of the [logging] module: the text a record
    renders to.  The message is formatted with the arguments only when
    there are any. *)
Definition getMessage (percent : string → list PyVal → result string)
    (c : LogCall) : result string :=
  match lc_args c with
  | [] => Ok (lc_msg c)
  | _ :: _ => percent (lc_msg c) (lc_args c)
  end.

(** ** Formatter *)

(** The decorations of [pwnlib.term.text] that the prefix table uses.  The
    module is not part of [log.py]; per the comment above the table it
    adds no escape codes when [sys.stderr] is not a terminal, which is
    [plain_text]. *)
Record TextModule := mkTextModule {
  magenta : string → string;
  bold_green : string → string;
  bold_red : string → string;
  bold_blue : string → string;
  bold_yellow : string → string;
  on_red : string → string
}.

Definition plain_text : TextModule :=
  {| magenta := id; bold_green := id; bold_red := id; bold_blue := id;
     bold_yellow := id; on_red := id |}.

Definition _msgtype_prefixes (text : TextModule) : gmap string string :=
  list_to_map
    [ ("status", magenta text "x");
      ("success", bold_green text "+");
      ("failure", bold_red text "-");
      ("debug", bold_red text "DEBUG");
      ("info", bold_blue text "*");
      ("warning", bold_yellow text "!");
      ("error", on_red text "ERROR");
      ("exception", on_red text "ERROR");
      ("critical", on_red text "CRITICAL");
      ("info_once", bold_blue text "*");
      ("warning_once", bold_yellow text "!") ].

Definition indent : string := "    ".

Definition nlindent : string := String "010"%char indent.

(** [sep.join(l)] *)
Fixpoint join (sep : string) (l : list string) : string :=
  match l with
  | [] => ""
  | x :: l' =>
      match l' with
      | [] => x
      | _ :: _ => x +:+ sep +:+ join sep l'
      end
  end.

Section Formatter.

(** The single characters, other than line feed and carriage return, at
    which [splitlines] breaks a line: none for a byte string; vertical
    tab, form feed and the separators 0x1c to 0x1e and 0x85 for a text
    string. *)
Variable other_boundary : Ascii.ascii → bool.

Definition is_boundary (c : Ascii.ascii) : bool :=
  Ascii.eqb c "013"%char || Ascii.eqb c "010"%char || other_boundary c.

(** [s.splitlines()], scanning [s] with the line read so far in [cur]: a
    line ends at a boundary character, a carriage return directly
    followed by a line feed counts as one boundary, and no empty line is
    added after a final boundary. *)
Fixpoint splitlines_from (cur : string) (s : string) : list string :=
  match s with
  | EmptyString =>
      match cur with
      | EmptyString => []
      | String _ _ => [cur]
      end
  | String c s' =>
      if Ascii.eqb c "013"%char then
        match s' with
        | EmptyString => [cur]
        | String d s'' =>
            if Ascii.eqb d "010"%char then cur :: splitlines_from "" s''
            else cur :: splitlines_from "" s'
        end
      else if Ascii.eqb c "010"%char || other_boundary c then
        cur :: splitlines_from "" s'
      else splitlines_from (cur +:+ String c "") s'
  end.

Definition splitlines (s : string) : list string := splitlines_from "" s.

(** No character of [s] ends a line. *)
Fixpoint line_free (s : string) : bool :=
  match s with
  | EmptyString => true
  | String c s' => negb (is_boundary c) && line_free s'
  end.

Variable text : TextModule.

(** [logging.Formatter.format], the default rendering of a record. *)
Variable default_format : LogCall → string.

(** The record the formatter sees carries the keys of ['extra'] as
    attributes; [getattr(record, 'pwnlib_msgtype', None)] reads one. *)
Definition Formatter_format (record : LogCall) : string :=
  let msg := default_format record in
  let msgtype := default VNone (lc_msgtype record) in
  match msgtype with
  | VNone => msg
  | _ =>
      let prefix :=
        match msgtype with
        | VStr t =>
            match _msgtype_prefixes text !! t with
            | Some glyph => "[" +:+ glyph +:+ "] "
            | None =>
                if String.eqb t "indented" then indent
                else if String.eqb t "animated" then ""
                else "[?] "
            end
        | _ => "[?] "
        end in
      let msg := prefix +:+ msg in
      join nlindent (splitlines msg)
  end.

End Formatter.

(** A byte string has no other boundaries. *)
Definition bytes_boundary (c : Ascii.ascii) : bool := false.

(** A text string also breaks at vertical tab, form feed, the file, group
    and record separators and the next-line character. *)
Definition text_boundary (c : Ascii.ascii) : bool :=
  Ascii.eqb c "011"%char || Ascii.eqb c "012"%char || Ascii.eqb c "028"%char
  || Ascii.eqb c "029"%char || Ascii.eqb c "030"%char || Ascii.eqb c "133"%char.

(** ** A fragment of the [%] operator

    The directives [%s], [%d], [%i] and [%%] applied to a tuple, with the
    errors CPython reports for them.  A directive that Python accepts but
    that is not covered here (flags, widths, precisions, mapping keys, the
    other conversion types) and the text of an object reference are
    reported as [OtherException]; nothing below evaluates the fragment on
    such an input. *)

Definition str (v : PyVal) : result string :=
  match v with
  | VNone => Ok "None"
  | VStr s => Ok s
  | VInt z => Ok (pretty z)
  | VRef _ => Raise (OtherException "outside the fragment")
  end.

Definition python_directive_chars : string := "diouxXeEfFgGcrsa#0- +123456789.*lLh(".

Fixpoint occurs (c : Ascii.ascii) (s : string) : bool :=
  match s with
  | EmptyString => false
  | String c' s' => if Ascii.eqb c c' then true else occurs c s'
  end.

Fixpoint py_percent_from (acc : string) (fmt : string) (args : list PyVal)
  : result string :=
  match fmt with
  | EmptyString =>
      match args with
      | [] => Ok acc
      | _ :: _ =>
          Raise (TypeError "not all arguments converted during string formatting")
      end
  | String c rest =>
      if Ascii.eqb c "%"%char then
        match rest with
        | EmptyString => Raise (ValueError "incomplete format")
        | String d rest' =>
            if Ascii.eqb d "%"%char then py_percent_from (acc +:+ "%") rest' args
            else if Ascii.eqb d "s"%char then
              match args with
              | [] => Raise (TypeError "not enough arguments for format string")
              | v :: args' =>
                  match str v with
                  | Ok t => py_percent_from (acc +:+ t) rest' args'
                  | Raise e => Raise e
                  end
              end
            else if Ascii.eqb d "d"%char || Ascii.eqb d "i"%char then
              match args with
              | [] => Raise (TypeError "not enough arguments for format string")
              | VInt z :: args' => py_percent_from (acc +:+ pretty z) rest' args'
              | _ :: _ => Raise (TypeError "%d format: a number is required")
              end
            else if occurs d python_directive_chars then
              Raise (OtherException "outside the fragment")
            else Raise (ValueError "unsupported format character")
        end
      else py_percent_from (acc +:+ String c EmptyString) rest args
  end.

Definition py_percent (fmt : string) (args : list PyVal) : result string :=
  py_percent_from "" fmt args.

(** * The vocabulary of the statements *)

(** What the caller's keyword arguments already say about a reserved key
    of ['extra']. *)
Definition kw_attr (k : string) (kwargs : Kwargs) : option PyVal :=
  kw_extra kwargs ≫= fun extra => extra !! k.

(** The caller leaves the two keys that [Logger._log] fills in alone. *)
Definition unreserved (kwargs : Kwargs) : Prop :=
  kw_attr "pwnlib_msgtype" kwargs = None ∧
  kw_attr "pwnlib_progress" kwargs = None.

(** The message [Progress._log] composes from the base message and the
    status. *)
Definition composed (base status : string) : string :=
  (if truthy base && truthy status then base +:+ ": " else base) +:+ status.

(** The three operations a caller can apply to a [Progress]. *)
Inductive ProgressCall :=
| CallStatus (now : time) (status : string) (args : list PyVal) (kwargs : Kwargs)
| CallSuccess (status : string) (args : list PyVal) (kwargs : Kwargs)
| CallFailure (status : string) (args : list PyVal) (kwargs : Kwargs).

Definition call (self : loc) (c : ProgressCall) : M unit :=
  match c with
  | CallStatus now status args kwargs => Progress_status self now status args kwargs
  | CallSuccess status args kwargs => Progress_success self status args kwargs
  | CallFailure status args kwargs => Progress_failure self status args kwargs
  end.

Fixpoint calls (self : loc) (cs : list ProgressCall) : M unit :=
  match cs with
  | [] => ret tt
  | c :: cs' => do! call self c in calls self cs'
  end.

Definition is_status (c : ProgressCall) : bool :=
  match c with
  | CallStatus _ _ _ _ => true
  | _ => false
  end.

Definition call_kwargs (c : ProgressCall) : Kwargs :=
  match c with
  | CallStatus _ _ _ kwargs => kwargs
  | CallSuccess _ _ kwargs => kwargs
  | CallFailure _ _ kwargs => kwargs
  end.

Definition call_status (c : ProgressCall) : string :=
  match c with
  | CallStatus _ status _ _ => status
  | CallSuccess status _ _ => status
  | CallFailure status _ _ => status
  end.

Definition call_args (c : ProgressCall) : list PyVal :=
  match c with
  | CallStatus _ _ args _ => args
  | CallSuccess _ args _ => args
  | CallFailure _ args _ => args
  end.

(** What one call leaves of a stopped [Progress]: [status] stores the
    clock reading before [_log] looks at the flag. *)
Definition after_stopped_call (c : ProgressCall) (p : Progress) : Progress :=
  match c with
  | CallStatus now _ _ _ =>
      if Qlt_le_dec (1 # 10) (now - last_status p) then set_last_status now p
      else p
  | _ => p
  end.

(** The body of a [with] block that only updates the status, and then
    either runs off its end or raises. *)
Definition scope_body (cs : list ProgressCall) (exit : option exn)
    (self : loc) : M unit :=
  do! calls self cs in
  match exit with
  | None => ret tt
  | Some e => raise e
  end.

(** Number of records with a given tag. *)
Definition tagged_count (t : string) (l : list LogCall) : nat :=
  length (filter (λ c, lc_msgtype c = Some (VStr t)) l).

Inductive OnceKind := InfoOnce | WarningOnce.

Global Instance OnceKind_eq_dec : EqDecision OnceKind.
Proof. solve_decision. Defined.

Record OnceCall := mkOnceCall {
  oc_kind : OnceKind;
  oc_logger : Logger;
  oc_message : string;
  oc_args : list PyVal;
  oc_kwargs : Kwargs
}.

Definition once_tag (k : OnceKind) : string :=
  match k with
  | InfoOnce => "info_once"
  | WarningOnce => "warning_once"
  end.

Definition once_set (k : OnceKind) (w : World) : gset string :=
  match k with
  | InfoOnce => _one_time_infos w
  | WarningOnce => _one_time_warnings w
  end.

Definition to_option {A} (r : result A) : option A :=
  match r with
  | Ok a => Some a
  | Raise _ => None
  end.

(** The rendered strings, in order and with repetitions dropped: a string
    is kept the first time it is met and skipped ever after. *)
Fixpoint first_occurrences (seen : gset string) (l : list string) : list string :=
  match l with
  | [] => []
  | m :: l' =>
      if decide (m ∈ seen) then first_occurrences seen l'
      else m :: first_occurrences ({[ m ]} ∪ seen) l'
  end.

Section Once.

Variable percent : string → list PyVal → result string.

Definition once_call (c : OnceCall) : M unit :=
  match oc_kind c with
  | InfoOnce =>
      Logger_info_once percent (oc_logger c) (oc_message c) (oc_args c) (oc_kwargs c)
  | WarningOnce =>
      Logger_warning_once percent (oc_logger c) (oc_message c) (oc_args c) (oc_kwargs c)
  end.

(** A process that makes the calls one after the other, going on after
    a call that raised. *)
Fixpoint once_calls (cs : list OnceCall) (w : World) : World :=
  match cs with
  | [] => w
  | c :: cs' => once_calls cs' (once_call c w).2
  end.

(** What the calls of one kind render to, where they render at all. *)
Definition call_keys (k : OnceKind) (cs : list OnceCall) : list string :=
  omap (λ c, if decide (oc_kind c = k)
             then to_option (percent (oc_message c) (oc_args c))
             else None) cs.

(** What the records of one kind that reached the logger render to. *)
Definition once_keys (k : OnceKind) (l : list LogCall) : list string :=
  omap (λ c, if decide (lc_msgtype c = Some (VStr (once_tag k)))
             then to_option (percent (lc_msg c) (lc_args c))
             else None) l.

End Once.

(** The continuation lines of a message, each behind a line feed and
    four spaces. *)
Definition continuation (rest : list string) : string :=
  foldr (λ l acc, String "010"%char "    " +:+ l +:+ acc) "" rest.

(** * Scenarios *)

(** The store after [log.progress('Working')], and the job in it. *)
Definition working_world : World :=
  (Logger_progress (mkLogger "pwnlib") "Working" "" [] no_kwargs initial_world).2.

Definition working_progress : Progress :=
  {| _logger := mkLogger "pwnlib"; _msg := "Working"; _status := "";
     _level := INFO; _stopped := false; last_status := 0 |}.

(** A job that was created and then declared a success. *)
Definition done_world : World :=
  (Progress_success 0 "Done" [] no_kwargs working_world).2.

Definition done_progress : Progress := set_stopped true working_progress.

Definition ZeroDivisionError : exn := OtherException "ZeroDivisionError".

(** [getLogger(name).info_once("User %s connected", who)] *)
Definition connected (name who : string) : OnceCall :=
  {| oc_kind := InfoOnce; oc_logger := mkLogger name;
     oc_message := "User %s connected"; oc_args := [VStr who];
     oc_kwargs := no_kwargs |}.

(** A record that carries a message, no arguments, and a tag. *)
Definition tagged_record (msg tag : string) : LogCall :=
  {| lc_logger := "pwnlib"; lc_level := INFO; lc_msg := msg; lc_args := [];
     lc_kwargs := {| kw_extra := Some {[ "pwnlib_msgtype" := VStr tag ]};
                     kw_level := None; kw_other := ∅ |} |}.

Definition two_lines : string := "line one" +:+ String "010"%char "line two".

(** * More vocabulary: the life of one job *)

Definition call_tag (c : ProgressCall) : string :=
  match c with
  | CallStatus _ _ _ _ => "status"
  | CallSuccess _ _ _ => "success"
  | CallFailure _ _ _ => "failure"
  end.

(** The keyword arguments that [Logger._log] passes on. *)
Definition tagged_kwargs (kwargs : Kwargs) (msgtype progress : PyVal) : Kwargs :=
  {| kw_extra := Some (setdefault "pwnlib_progress" progress
                         (setdefault "pwnlib_msgtype" msgtype
                            (default ∅ (kw_extra kwargs))));
     kw_level := kw_level kwargs;
     kw_other := kw_other kwargs |}.

(** The record that a call on the [Progress] at [self] hands to the
    logger, when it hands one. *)
Definition record_for (self : loc) (p : Progress) (c : ProgressCall) : LogCall :=
  mkLogCall (Logger__logger (_logger p)) (_level p)
    (composed (_msg p) (call_status c)) (call_args c)
    (tagged_kwargs (call_kwargs c) (VStr (call_tag c)) (VRef self)).

(** The throttle test of [status]. *)
Definition passes (now : time) (p : Progress) : bool :=
  if Qlt_le_dec (1 # 10) (now - last_status p) then true else false.

(** Whether a call reaches the logger, and what it leaves of the object. *)
Definition emits (c : ProgressCall) (p : Progress) : bool :=
  match c with
  | CallStatus now _ _ _ => passes now p && negb (_stopped p)
  | _ => negb (_stopped p)
  end.

Definition after_call (c : ProgressCall) (p : Progress) : Progress :=
  match c with
  | CallStatus now _ _ _ => if passes now p then set_last_status now p else p
  | _ => set_stopped true p
  end.

(** The calls of a sequence that reach the logger, and the final object. *)
Fixpoint accepted (p : Progress) (cs : list ProgressCall) : list ProgressCall :=
  match cs with
  | [] => []
  | c :: cs' =>
      if emits c p then c :: accepted (after_call c p) cs'
      else accepted (after_call c p) cs'
  end.

Fixpoint after_calls (p : Progress) (cs : list ProgressCall) : Progress :=
  match cs with
  | [] => p
  | c :: cs' => after_calls (after_call c p) cs'
  end.

(** The clock readings of the status calls of a sequence. *)
Definition call_times (cs : list ProgressCall) : list time :=
  omap (λ c, match c with CallStatus now _ _ _ => Some now | _ => None end) cs.

(** Readings that are each more than 100 ms after the one before. *)
Fixpoint spaced (last : time) (ts : list time) : Prop :=
  match ts with
  | [] => True
  | t :: ts' => (last + (1 # 10) < t)%Q ∧ spaced t ts'
  end.

(** * More of the source: the remaining methods of [Logger] *)

(** [Logger.exception].  [current] is the exception being handled when the
    method is called, if any; the bare [raise] re-raises it.  Without one
    the bare [raise] fails with an error whose type depends on the
    version of Python, given here as [OtherException]. *)
Definition Logger_exception {A} (current : option exn) (self : Logger)
    (message : string) (args : list PyVal) (kwargs : Kwargs) : M A :=
  let kwargs := {| kw_extra := kw_extra kwargs; kw_level := kw_level kwargs;
                   kw_other := <["exc_info" := VInt 1]> (kw_other kwargs) |} in
  do! Logger__log self ERROR message args kwargs (VStr "exception") VNone in
  match current with
  | Some e => raise e
  | None => raise (OtherException "no active exception to re-raise")
  end.

(** The methods of [Logger] that only emit: a fixed tag, and a level that
    is fixed or, for [indented] and [log], given by the caller. *)
Inductive LoggerMethod :=
| MIndented
| MSuccess
| MFailure
| MDebug
| MInfo
| MWarning
| MCritical
| MLog (level : Z).

Definition Logger_call (m : LoggerMethod) (self : Logger) (message : string)
    (args : list PyVal) (kwargs : Kwargs) : M unit :=
  match m with
  | MIndented => Logger_indented self message args kwargs
  | MSuccess => Logger_success self message args kwargs
  | MFailure => Logger_failure self message args kwargs
  | MDebug => Logger_debug self message args kwargs
  | MInfo => Logger_info self message args kwargs
  | MWarning => Logger_warning self message args kwargs
  | MCritical => Logger_critical self message args kwargs
  | MLog level => Logger_log self level message args kwargs
  end.

Record LoggerCall := mkLoggerCall {
  gc_method : LoggerMethod;
  gc_logger : Logger;
  gc_message : string;
  gc_args : list PyVal;
  gc_kwargs : Kwargs
}.


(** * More vocabulary: what the emitting methods put on a record *)

Definition method_level (m : LoggerMethod) (kwargs : Kwargs) : Z :=
  match m with
  | MIndented => default INFO (kw_level kwargs)
  | MSuccess | MFailure | MInfo => INFO
  | MDebug => DEBUG
  | MWarning => WARNING
  | MCritical => CRITICAL
  | MLog level => level
  end.

Definition method_tag (m : LoggerMethod) : PyVal :=
  match m with
  | MIndented => VStr "indented"
  | MSuccess => VStr "success"
  | MFailure => VStr "failure"
  | MDebug => VStr "debug"
  | MInfo => VStr "info"
  | MWarning => VStr "warning"
  | MCritical => VStr "critical"
  | MLog _ => VNone
  end.

Definition method_kwargs (m : LoggerMethod) (kwargs : Kwargs) : Kwargs :=
  match m with
  | MIndented => pop_level kwargs
  | _ => kwargs
  end.

Definition record_of_call (c : LoggerCall) : LogCall :=
  mkLogCall (Logger__logger (gc_logger c))
    (method_level (gc_method c) (gc_kwargs c)) (gc_message c) (gc_args c)
    (tagged_kwargs (method_kwargs (gc_method c) (gc_kwargs c))
       (method_tag (gc_method c)) VNone).

(** * More of the source: the registry of loggers *)




(** * More of the source: the level of the console handler *)

(** The console handler.  Its [level] property has a getter that returns
    [context.log_level] and a setter that does nothing, so the object
    holds no level; the stream and the formatter it holds are not
    modelled. *)
Inductive Handler := ConsoleHandler.

Definition Handler_level (log_level : Z) (self : Handler) : Z := log_level.

Definition Handler_level_setter (self : Handler) (level : Z) : Handler := self.

(** * More vocabulary: one-time calls that render *)

Definition renders (percent : string → list PyVal → result string)
    (c : OnceCall) : bool :=
  match percent (oc_message c) (oc_args c) with
  | Ok _ => true
  | Raise _ => false
  end.


(** * More vocabulary: what [Formatter.format] puts before a message *)

(** The prefix that [Formatter.format] chooses for a tag. *)
Definition format_prefix (text : TextModule) (msgtype : PyVal) : string :=
  match msgtype with
  | VStr t =>
      match _msgtype_prefixes text !! t with
      | Some glyph => "[" +:+ glyph +:+ "] "
      | None =>
          if String.eqb t "indented" then indent
          else if String.eqb t "animated" then ""
          else "[?] "
      end
  | _ => "[?] "
  end.

(** The prefix of the records of each emitting method of [Logger], and
    of each operation of a [Progress]. *)
Definition method_prefix (text : TextModule) (m : LoggerMethod) : string :=
  match m with
  | MIndented => "    "
  | MSuccess => "[" +:+ bold_green text "+" +:+ "] "
  | MFailure => "[" +:+ bold_red text "-" +:+ "] "
  | MDebug => "[" +:+ bold_red text "DEBUG" +:+ "] "
  | MInfo => "[" +:+ bold_blue text "*" +:+ "] "
  | MWarning => "[" +:+ bold_yellow text "!" +:+ "] "
  | MCritical => "[" +:+ on_red text "CRITICAL" +:+ "] "
  | MLog _ => ""
  end.

Definition call_prefix (text : TextModule) (c : ProgressCall) : string :=
  match c with
  | CallStatus _ _ _ _ => "[" +:+ magenta text "x" +:+ "] "
  | CallSuccess _ _ _ => "[" +:+ bold_green text "+" +:+ "] "
  | CallFailure _ _ _ => "[" +:+ bold_red text "-" +:+ "] "
  end.

(** The last character of a non-empty string is neither a line feed nor
    one of the other boundaries (it may be a carriage return). *)
Fixpoint open_end (other : Ascii.ascii → bool) (s : string) : bool :=
  match s with
  | EmptyString => false
  | String c s' =>
      match s' with
      | EmptyString => negb (Ascii.eqb c "010"%char || other c)
      | String _ _ => open_end other s'
      end
  end.

(** [log.info('Hello, world!')] *)
Definition hello : LoggerCall :=
  mkLoggerCall MInfo (mkLogger "pwnlib") "Hello, world!" [] no_kwargs.

(** A line feed right after a carriage return belongs to it. *)
Definition skip_line_feed (s : string) : string :=
  match s with
  | EmptyString => s
  | String d s'' => if Ascii.eqb d "010"%char then s'' else s
  end.

(** * More of the source: [Handler.emit]

    The console state that [emit] works on.  [term.output] hands out a
    handle to a line of the terminal and [handle.update] rewrites the
    line.  The animator thread of a job redraws the spinner line every
    100 ms until its stop event is set; which frame it has drawn last is
    not modelled: the line of a live animator is [Frames].  [emit] keeps
    its bookkeeping in four attributes that it adds to the [Progress]
    object; they are held here, per object, in [spinner_attrs]. *)

Definition handle := nat.

Inductive Line :=
| Text (s : string)
| Frames.

(** A thread running [spin]: the line it redraws, the event it waits on,
    and whether it is still running. *)
Record Thread := mkThread {
  spin_handle : handle;
  spin_stop : nat;
  alive : bool
}.

Record Spinner := mkSpinner {
  _spinner_handle : handle;
  _msg_handle : handle;
  _stop_event : nat;
  _spinner_thread : nat
}.

Record Console := mkConsole {
  lines : gmap handle Line;
  events : gmap nat bool;
  threads : gmap nat Thread;
  spinner_attrs : gmap loc Spinner;
  stream : list LogCall
}.

Definition empty_console : Console :=
  {| lines := ∅; events := ∅; threads := ∅; spinner_attrs := ∅; stream := [] |}.

Inductive emit_exn :=
| AttributeError
| KeyError (key : PyVal).

Inductive outcome :=
| Returned
| Raised (e : emit_exn)
| Blocked.

(** [term.output(text)]: a new line. *)
Definition term_output (text : string) (k : Console) : handle * Console :=
  let h : handle := fresh (dom (lines k)) in
  (h, {| lines := <[h := Text text]> (lines k); events := events k;
         threads := threads k; spinner_attrs := spinner_attrs k;
         stream := stream k |}).

(** [handle.update(text)] *)
Definition handle_update (h : handle) (text : string) (k : Console) : Console :=
  {| lines := <[h := Text text]> (lines k); events := events k;
     threads := threads k; spinner_attrs := spinner_attrs k;
     stream := stream k |}.

(** [threading.Event()] *)
Definition new_event (k : Console) : nat * Console :=
  let e : nat := fresh (dom (events k)) in
  (e, {| lines := lines k; events := <[e := false]> (events k);
         threads := threads k; spinner_attrs := spinner_attrs k;
         stream := stream k |}).

(** [Thread(target = spin)] and [t.start()]: from now on the animator
    redraws the spinner line. *)
Definition start_spin (h : handle) (stop : nat) (k : Console) : nat * Console :=
  let t : nat := fresh (dom (threads k)) in
  (t, {| lines := <[h := Frames]> (lines k); events := events k;
         threads := <[t := mkThread h stop true]> (threads k);
         spinner_attrs := spinner_attrs k; stream := stream k |}).

(** [event.set()] *)
Definition event_set (e : nat) (k : Console) : Console :=
  {| lines := lines k; events := <[e := true]> (events k);
     threads := threads k; spinner_attrs := spinner_attrs k;
     stream := stream k |}.

(** [thread.join()]: returns once the thread has ended.  A thread that
    runs [spin] ends when its event is set; joining it before that never
    returns. *)
Definition thread_join (t : nat) (k : Console) : option Console :=
  match threads k !! t with
  | None => Some k
  | Some th =>
      if alive th then
        if default false (events k !! spin_stop th) then
          Some {| lines := lines k; events := events k;
                  threads := <[t := mkThread (spin_handle th) (spin_stop th) false]>
                               (threads k);
                  spinner_attrs := spinner_attrs k; stream := stream k |}
        else None
      else Some k
  end.

Definition set_spinner_attrs (l : loc) (sp : Spinner) (k : Console) : Console :=
  {| lines := lines k; events := events k; threads := threads k;
     spinner_attrs := <[l := sp]> (spinner_attrs k); stream := stream k |}.

(** [StreamHandler.emit(record)]: the record goes to the stream. *)
Definition stream_emit (record : LogCall) (k : Console) : Console :=
  {| lines := lines k; events := events k; threads := threads k;
     spinner_attrs := spinner_attrs k; stream := stream k ++ [record] |}.

(** [record.<name> = value] *)
Definition set_record_attr (name : string) (value : PyVal) (record : LogCall)
  : LogCall :=
  mkLogCall (lc_logger record) (lc_level record) (lc_msg record) (lc_args record)
    {| kw_extra := Some (<[name := value]>
                           (default ∅ (kw_extra (lc_kwargs record))));
       kw_level := kw_level (lc_kwargs record);
       kw_other := kw_other (lc_kwargs record) |}.

Section Handler.

Variable other_boundary : Ascii.ascii → bool.
Variable text : TextModule.
Variable default_format : LogCall → string.

(** [term.term_mode] is read on every call; it is the argument
    [term_mode].  The handler's formatter is the [Formatter] of this
    module.  The result holds the record as [emit] leaves it, since the
    caller goes on to hand the same object to the other handlers. *)
Definition Handler_emit (term_mode : bool) (record : LogCall) (k : Console)
  : outcome * LogCall * Console :=
  let progress := default VNone (lc_progress record) in
  if bool_decide (progress = VNone) || negb term_mode then
    (Returned, record, stream_emit record k)
  else
    match lc_msgtype record with
    | None => (Raised AttributeError, record, k)
    | Some msgtype =>
        let record := set_record_attr "pwnlib_msgtype" (VStr "animated") record in
        let msg :=
          Formatter_format other_boundary text default_format record
          +:+ String "010"%char "" in
        let created :=
          match progress with
          | VRef l =>
              match spinner_attrs k !! l with
              | None =>
                  let '(spinner_handle, k) := term_output "" k in
                  let '(msg_handle, k) := term_output msg k in
                  let '(stop, k) := new_event k in
                  let '(t, k) := start_spin spinner_handle stop k in
                  inl (l, set_spinner_attrs l
                            (mkSpinner spinner_handle msg_handle stop t) k)
              | Some sp => inl (l, handle_update (_msg_handle sp) msg k)
              end
          | _ =>
              (* no attribute can be read from or added to such a value *)
              let '(spinner_handle, k) := term_output "" k in
              let '(msg_handle, k) := term_output msg k in
              let '(stop, k) := new_event k in
              let '(t, k) := start_spin spinner_handle stop k in
              inr k
          end in
        match created with
        | inr k => (Raised AttributeError, record, k)
        | inl (l, k) =>
            if bool_decide (msgtype ≠ VStr "status") then
              match spinner_attrs k !! l with
              | None => (Raised AttributeError, record, k)
              | Some sp =>
                  let k := event_set (_stop_event sp) k in
                  match thread_join (_spinner_thread sp) k with
                  | None => (Blocked, record, k)
                  | Some k =>
                      match msgtype with
                      | VStr t =>
                          match _msgtype_prefixes text !! t with
                          | Some glyph =>
                              (Returned, record,
                               handle_update (_spinner_handle sp)
                                 ("[" +:+ glyph +:+ "] ") k)
                          | None => (Raised (KeyError msgtype), record, k)
                          end
                      | _ => (Raised (KeyError msgtype), record, k)
                      end
                  end
              end
            else (Returned, record, k)
        end
    end.

(** The records of a run, handed to [emit] one after the other; the run
    stops at the first call that does not return. *)
Fixpoint Handler_emits (term_mode : bool) (records : list LogCall) (k : Console)
  : outcome * Console :=
  match records with
  | [] => (Returned, k)
  | r :: records' =>
      match Handler_emit term_mode r k with
      | (Returned, _, k') => Handler_emits term_mode records' k'
      | (o, _, k') => (o, k')
      end
  end.

End Handler.

(** * More vocabulary: the spinner of a job *)

(** What [emit] does when the [Progress] has no spinner yet. *)
Definition create_spinner (l : loc) (msg : string) (k : Console) : Console :=
  let '(spinner_handle, k) := term_output "" k in
  let '(msg_handle, k) := term_output msg k in
  let '(stop, k) := new_event k in
  let '(t, k) := start_spin spinner_handle stop k in
  set_spinner_attrs l (mkSpinner spinner_handle msg_handle stop t) k.

(** The job at [l] is being animated, with [msg] on its message line. *)
Definition animating (k : Console) (l : loc) (msg : string) : Prop :=
  ∃ sp, spinner_attrs k !! l = Some sp
      ∧ _spinner_handle sp ≠ _msg_handle sp
      ∧ lines k !! _spinner_handle sp = Some Frames
      ∧ lines k !! _msg_handle sp = Some (Text msg)
      ∧ threads k !! _spinner_thread sp
        = Some (mkThread (_spinner_handle sp) (_stop_event sp) true)
      ∧ events k !! _stop_event sp = Some false.


(** The bookkeeping of [emit] is sound: every spinner has two different
    lines on the terminal and a thread that redraws its spinner line and
    waits on its event; the thread is alive exactly as long as the event
    is not set, and the spinner line of a live thread is the animator's.
    No two jobs share a line, a thread or an event. *)
Definition console_ok (k : Console) : Prop :=
  (∀ l sp, spinner_attrs k !! l = Some sp →
     _spinner_handle sp ≠ _msg_handle sp
     ∧ is_Some (lines k !! _spinner_handle sp)
     ∧ is_Some (lines k !! _msg_handle sp)
     ∧ ∃ a, threads k !! _spinner_thread sp
            = Some (mkThread (_spinner_handle sp) (_stop_event sp) a)
          ∧ events k !! _stop_event sp = Some (negb a)
          ∧ (a = true → lines k !! _spinner_handle sp = Some Frames))
  ∧ (∀ l1 l2 sp1 sp2,
       l1 ≠ l2 →
       spinner_attrs k !! l1 = Some sp1 →
       spinner_attrs k !! l2 = Some sp2 →
       _spinner_handle sp1 ≠ _spinner_handle sp2
       ∧ _spinner_handle sp1 ≠ _msg_handle sp2
       ∧ _msg_handle sp1 ≠ _msg_handle sp2
       ∧ _spinner_thread sp1 ≠ _spinner_thread sp2
       ∧ _stop_event sp1 ≠ _stop_event sp2).

(** The two halves of the animated path of [emit]: the message line is
    created or rewritten, then a record that is no status update stops
    the animator and settles the spinner line. *)
Definition prepare_spinner (l : loc) (msg : string) (k : Console) : Console :=
  match spinner_attrs k !! l with
  | None => create_spinner l msg k
  | Some sp => handle_update (_msg_handle sp) msg k
  end.

Definition finish_spinner (text : TextModule) (l : loc) (msgtype : PyVal)
    (record : LogCall) (k : Console) : outcome * LogCall * Console :=
  if bool_decide (msgtype ≠ VStr "status") then
    match spinner_attrs k !! l with
    | None => (Raised AttributeError, record, k)
    | Some sp =>
        let k := event_set (_stop_event sp) k in
        match thread_join (_spinner_thread sp) k with
        | None => (Blocked, record, k)
        | Some k =>
            match msgtype with
            | VStr t =>
                match _msgtype_prefixes text !! t with
                | Some glyph =>
                    (Returned, record,
                     handle_update (_spinner_handle sp) ("[" +:+ glyph +:+ "] ") k)
                | None => (Raised (KeyError msgtype), record, k)
                end
            | _ => (Raised (KeyError msgtype), record, k)
            end
        end
    end
  else (Returned, record, k).

(** The console once the animator of [sp] has been told to stop and has
    been joined. *)
Definition stopped_console (sp : Spinner) (k : Console) : Console :=
  {| lines := lines k;
     events := <[_stop_event sp := true]> (events k);
     threads := <[_spinner_thread sp :=
                    mkThread (_spinner_handle sp) (_stop_event sp) false]>
                  (threads k);
     spinner_attrs := spinner_attrs k;
     stream := stream k |}.

(** The animator of the job at [l] has ended, but its spinner line was
    never settled: it keeps the last frame the animator drew. *)
Definition frozen (k : Console) (l : loc) (msg : string) : Prop :=
  ∃ sp, spinner_attrs k !! l = Some sp
      ∧ lines k !! _spinner_handle sp = Some Frames
      ∧ lines k !! _msg_handle sp = Some (Text msg)
      ∧ threads k !! _spinner_thread sp
        = Some (mkThread (_spinner_handle sp) (_stop_event sp) false)
      ∧ events k !! _stop_event sp = Some true.


Section Handler_vocabulary.

Variable other_boundary : Ascii.ascii → bool.
Variable text : TextModule.
Variable default_format : LogCall → string.

(** The record as [emit] leaves it on the animated path, and the text it
    puts on the message line. *)
Definition animated (record : LogCall) : LogCall :=
  set_record_attr "pwnlib_msgtype" (VStr "animated") record.

Definition animated_text (record : LogCall) : string :=
  Formatter_format other_boundary text default_format (animated record)
  +:+ String "010"%char "".

End Handler_vocabulary.


(** The records of [log.progress('Working')], one status update and
    [success()]. *)
Definition working_updates : list LogCall :=
  [mkLogCall "pwnlib" INFO "Working" []
     (tagged_kwargs no_kwargs (VStr "status") (VRef 0));
   record_for 0 working_progress (CallStatus 1700000000 "At 0" [] no_kwargs)].

Definition working_final : LogCall :=
  record_for 0 working_progress (CallSuccess "Done" [] no_kwargs).

(** [log.indented('x', extra = {'pwnlib_progress': p})] for the job at 0. *)
Definition indented_job_record : LogCall :=
  mkLogCall "pwnlib" INFO "x" []
    (tagged_kwargs {| kw_extra := Some {[ "pwnlib_progress" := VRef 0 ]};
                      kw_level := None; kw_other := ∅ |}
       (VStr "indented") VNone).

(** * Verification *)

(** ** Basic facts about the store and [Logger._log] *)

Lemma setdefault_lookup k v (d : gmap string PyVal) :
  setdefault k v d !! k = Some (default v (d !! k)).
Proof.
  unfold setdefault. destruct (d !! k) eqn:E; simpl.
  - exact E.
  - apply lookup_insert_eq.
Qed.

Lemma setdefault_lookup_ne k k' v (d : gmap string PyVal) :
  k ≠ k' → setdefault k v d !! k' = d !! k'.
Proof.
  intros Hne. unfold setdefault. destruct (d !! k); [done|].
  by apply lookup_insert_ne.
Qed.

Lemma alter_lookup_insert (f : Progress → Progress) (h : gmap loc Progress) l p :
  h !! l = Some p → alter f l h = <[l := f p]> h.
Proof.
  intros Hl. apply map_eq. intros j. destruct (decide (l = j)) as [->|Hne].
  - by rewrite lookup_alter_eq, lookup_insert_eq, Hl.
  - by rewrite lookup_alter_ne, lookup_insert_ne.
Qed.

Lemma unreserved_no_kwargs : unreserved no_kwargs.
Proof. split; reflexivity. Qed.

(** The call that [Logger._log] hands to the underlying logger. *)
Lemma Logger__log_run self level msg args kwargs msgtype progress w :
  ∃ c, Logger__log self level msg args kwargs msgtype progress w = (Ok tt, emit c w)
     ∧ lc_logger c = Logger__logger self
     ∧ lc_level c = level
     ∧ lc_msg c = msg
     ∧ lc_args c = args
     ∧ lc_msgtype c = Some (default msgtype (kw_attr "pwnlib_msgtype" kwargs))
     ∧ lc_progress c = Some (default progress (kw_attr "pwnlib_progress" kwargs)).
Proof.
  eexists. split; [reflexivity|]. repeat split.
  - unfold lc_msgtype, lc_attr, kw_attr. simpl.
    rewrite setdefault_lookup_ne by done. rewrite setdefault_lookup.
    destruct (kw_extra kwargs); simpl; [done|]. by rewrite lookup_empty.
  - unfold lc_progress, lc_attr, kw_attr. simpl.
    rewrite setdefault_lookup. rewrite setdefault_lookup_ne by done.
    destruct (kw_extra kwargs); simpl; [done|]. by rewrite lookup_empty.
Qed.

Lemma Progress__log_stopped self status args kwargs msgtype w p :
  heap w !! self = Some p → _stopped p = true →
  Progress__log self status args kwargs msgtype w = (Ok tt, w).
Proof.
  intros Hp Hs. unfold Progress__log, bind, getself. by rewrite Hp, Hs.
Qed.

Lemma Progress__log_active self status args kwargs msgtype w p :
  heap w !! self = Some p → _stopped p = false →
  ∃ c, Progress__log self status args kwargs msgtype w = (Ok tt, emit c w)
     ∧ lc_logger c = Logger__logger (_logger p)
     ∧ lc_level c = _level p
     ∧ lc_msg c = composed (_msg p) status
     ∧ lc_args c = args
     ∧ lc_msgtype c = Some (default msgtype (kw_attr "pwnlib_msgtype" kwargs))
     ∧ lc_progress c = Some (default (VRef self) (kw_attr "pwnlib_progress" kwargs)).
Proof.
  intros Hp Hs. unfold Progress__log, bind, getself. rewrite Hp, Hs.
  apply Logger__log_run.
Qed.

(** ** Progress.status: the throttle *)

Lemma Progress_status_accepted w self p now text args kwargs :
  heap w !! self = Some p →
  _stopped p = false →
  (1 # 10 < now - last_status p)%Q →
  ∃ c, Progress_status self now text args kwargs w
         = (Ok tt, emit c (set_heap (<[self := set_last_status now p]> (heap w)) w))
     ∧ lc_msg c = composed (_msg p) text
     ∧ lc_args c = args
     ∧ lc_msgtype c = Some (default (VStr "status") (kw_attr "pwnlib_msgtype" kwargs))
     ∧ lc_progress c = Some (default (VRef self) (kw_attr "pwnlib_progress" kwargs)).
Proof.
  intros Hp Hs Hnow.
  unfold Progress_status, bind at 1. unfold getself at 1. rewrite Hp.
  destruct (Qlt_le_dec _ _) as [_|Hle]; [|lra].
  unfold bind, setself.
  set (w1 := set_heap _ w).
  assert (Hp1 : heap w1 !! self = Some (set_last_status now p)).
  { subst w1. simpl. by rewrite lookup_alter_eq, Hp. }
  destruct (Progress__log_active self text args kwargs (VStr "status") w1 _ Hp1 Hs)
    as (c & Hrun & _ & _ & Hmsg & Hargs & Htag & Href).
  exists c. rewrite Hrun. subst w1. rewrite (alter_lookup_insert _ _ _ _ Hp).
  repeat split; done.
Qed.

Lemma Progress_status_dropped w self p now text args kwargs :
  heap w !! self = Some p →
  (now - last_status p <= 1 # 10)%Q →
  Progress_status self now text args kwargs w = (Ok tt, w).
Proof.
  intros Hp Hnow.
  unfold Progress_status, bind at 1. unfold getself at 1. rewrite Hp.
  destruct (Qlt_le_dec _ _) as [Hlt|_]; [lra|done].
Qed.

(** C1 (as the code has it).  For a [Progress] that is not stopped, a
    [status(text)] call whose clock reading is more than 100 ms after
    [last_status] records the reading as the new [last_status] and hands
    exactly one record to the logger, tagged ['status'] and carrying a
    reference to this [Progress]; the stored [_status] text keeps the
    value the constructor gave it.  A call within 100 ms of [last_status]
    returns with the store unchanged: no record, no state change. *)
Theorem Progress_status_throttle (w : World) (self : loc) (p : Progress)
    (now : time) (text : string) (args : list PyVal) (kwargs : Kwargs) :
  heap w !! self = Some p →
  _stopped p = false →
  unreserved kwargs →
  ((1 # 10 < now - last_status p)%Q →
     ∃ c p',
       Progress_status self now text args kwargs w
         = (Ok tt, emit c (set_heap (<[self := p']> (heap w)) w))
       ∧ last_status p' = now
       ∧ _status p' = _status p
       ∧ _msg p' = _msg p ∧ _level p' = _level p ∧ _logger p' = _logger p
       ∧ _stopped p' = false
       ∧ lc_msgtype c = Some (VStr "status")
       ∧ lc_progress c = Some (VRef self)
       ∧ lc_msg c = composed (_msg p) text
       ∧ lc_args c = args)
  ∧ ((now - last_status p <= 1 # 10)%Q →
     Progress_status self now text args kwargs w = (Ok tt, w)).
Proof.
  intros Hp Hs [Hmt Hpr]. split; intros Hnow.
  - destruct (Progress_status_accepted w self p now text args kwargs Hp Hs Hnow)
      as (c & Hrun & Hmsg & Hargs & Htag & Href).
    rewrite Hmt in Htag. rewrite Hpr in Href.
    exists c, (set_last_status now p). repeat split; done.
  - by eapply Progress_status_dropped.
Qed.

Lemma working_world_heap : heap working_world !! 0 = Some working_progress.
Proof. vm_compute. reflexivity. Qed.

Lemma Progress_status_throttle_witness :
  ∃ c p',
    Progress_status 0 1700000000 "Reticulating splines" [] no_kwargs working_world
      = (Ok tt, emit c (set_heap (<[0 := p']> (heap working_world)) working_world))
    ∧ last_status p' = 1700000000%Q
    ∧ lc_msg c = "Working: Reticulating splines".
Proof.
  destruct (Progress_status_throttle working_world 0 working_progress
              1700000000 "Reticulating splines" [] no_kwargs
              working_world_heap eq_refl unreserved_no_kwargs) as [Hacc _].
  destruct Hacc as (c & p' & Hrun & Hlast & _ & _ & _ & _ & _ & _ & _ & Hmsg & _).
  { vm_compute. reflexivity. }
  exists c, p'. repeat split; assumption.
Defined.

(** C1 as stated fails: the accepted update is not stored as the current
    status.  [log.progress('Working')] followed by an accepted
    [status('Reticulating splines')] leaves [_status] at [''], the value
    the constructor stored. *)
Lemma Progress_status_text_not_stored :
  let w' := (Progress_status 0 1700000000 "Reticulating splines" [] no_kwargs
               working_world).2 in
  heap working_world !! 0 = Some working_progress
  ∧ _stopped working_progress = false
  ∧ (1 # 10 < 1700000000 - last_status working_progress)%Q
  ∧ length (sink w') = S (length (sink working_world))
  ∧ _status <$> heap w' !! 0 = Some ""
  ∧ _status <$> heap w' !! 0 ≠ Some "Reticulating splines".
Proof.
  vm_compute. repeat split; congruence.
Qed.

(** ** The stopped state *)

Lemma set_heap_insert_id w self p :
  heap w !! self = Some p → set_heap (<[self := p]> (heap w)) w = w.
Proof.
  intros Hp. destruct w as [h i wn s]. unfold set_heap. simpl in *.
  by rewrite insert_id.
Qed.

Lemma call_stopped w self p c :
  heap w !! self = Some p → _stopped p = true →
  call self c w = (Ok tt, set_heap (<[self := after_stopped_call c p]> (heap w)) w).
Proof.
  intros Hp Hs. destruct c as [now st args kw|st args kw|st args kw]; simpl.
  - unfold Progress_status, bind at 1. unfold getself at 1. rewrite Hp.
    destruct (Qlt_le_dec _ _) as [Hlt|Hle].
    + unfold bind, setself.
      erewrite Progress__log_stopped; [|by simpl; rewrite lookup_alter_eq, Hp|done].
      by rewrite (alter_lookup_insert _ _ _ _ Hp).
    + by rewrite set_heap_insert_id.
  - unfold Progress_success, bind.
    rewrite (Progress__log_stopped _ _ _ _ _ _ _ Hp Hs). unfold setself.
    rewrite (alter_lookup_insert _ _ _ _ Hp).
    f_equal. f_equal. f_equal. destruct p; simpl in *; by subst.
  - unfold Progress_failure, bind.
    rewrite (Progress__log_stopped _ _ _ _ _ _ _ Hp Hs). unfold setself.
    rewrite (alter_lookup_insert _ _ _ _ Hp).
    f_equal. f_equal. f_equal. destruct p; simpl in *; by subst.
Qed.

Lemma after_stopped_call_attrs c p :
  _status (after_stopped_call c p) = _status p
  ∧ _level (after_stopped_call c p) = _level p
  ∧ _stopped (after_stopped_call c p) = _stopped p
  ∧ _msg (after_stopped_call c p) = _msg p
  ∧ _logger (after_stopped_call c p) = _logger p.
Proof.
  destruct c; simpl; try destruct (Qlt_le_dec _ _); done.
Qed.

Lemma success_stops w self p status args kwargs :
  heap w !! self = Some p →
  ∃ w', Progress_success self status args kwargs w = (Ok tt, w')
      ∧ _stopped <$> heap w' !! self = Some true.
Proof.
  intros Hp. unfold Progress_success, bind.
  destruct (_stopped p) eqn:Hs.
  - rewrite (Progress__log_stopped _ _ _ _ _ _ _ Hp Hs). eexists. split; [done|].
    simpl. by rewrite lookup_alter_eq, Hp.
  - destruct (Progress__log_active self status args kwargs (VStr "success") w p Hp Hs)
      as (c & -> & _). eexists. split; [done|].
    simpl. by rewrite lookup_alter_eq, Hp.
Qed.

Lemma failure_stops w self p status args kwargs :
  heap w !! self = Some p →
  ∃ w', Progress_failure self status args kwargs w = (Ok tt, w')
      ∧ _stopped <$> heap w' !! self = Some true.
Proof.
  intros Hp. unfold Progress_failure, bind.
  destruct (_stopped p) eqn:Hs.
  - rewrite (Progress__log_stopped _ _ _ _ _ _ _ Hp Hs). eexists. split; [done|].
    simpl. by rewrite lookup_alter_eq, Hp.
  - destruct (Progress__log_active self status args kwargs (VStr "failure") w p Hp Hs)
      as (c & -> & _). eexists. split; [done|].
    simpl. by rewrite lookup_alter_eq, Hp.
Qed.

Lemma call_stops w self p c :
  heap w !! self = Some p →
  is_status c = false →
  ∃ w' p', call self c w = (Ok tt, w')
         ∧ heap w' !! self = Some p'
         ∧ _stopped p' = true.
Proof.
  intros Hp Hc. destruct c as [now st args kw|st args kw|st args kw]; [done|..]; simpl.
  - destruct (success_stops w self p st args kw Hp) as (w' & Hrun & Hs).
    destruct (heap w' !! self) as [p'|] eqn:Hp'; [|done].
    exists w', p'. simpl in Hs. repeat split; congruence.
  - destruct (failure_stops w self p st args kw Hp) as (w' & Hrun & Hs).
    destruct (heap w' !! self) as [p'|] eqn:Hp'; [|done].
    exists w', p'. simpl in Hs. repeat split; congruence.
Qed.

Lemma calls_stopped (cs : list ProgressCall) : ∀ w self p,
  heap w !! self = Some p →
  _stopped p = true →
  ∃ p', calls self cs w = (Ok tt, set_heap (<[self := p']> (heap w)) w)
      ∧ _status p' = _status p
      ∧ _level p' = _level p
      ∧ _stopped p' = true
      ∧ _msg p' = _msg p
      ∧ _logger p' = _logger p
      ∧ (forallb (fun c => negb (is_status c)) cs = true → p' = p).
Proof.
  induction cs as [|c cs IH]; intros w self p Hp Hs.
  - exists p. simpl. unfold ret. rewrite set_heap_insert_id by done.
    repeat split; done.
  - simpl. unfold bind. rewrite (call_stopped _ _ _ c Hp Hs).
    set (p1 := after_stopped_call c p).
    set (w1 := set_heap (<[self := p1]> (heap w)) w).
    destruct (after_stopped_call_attrs c p) as (Est & Elv & Esp & Emsg & Elog).
    fold p1 in Est, Elv, Esp, Emsg, Elog.
    assert (Hp1 : heap w1 !! self = Some p1) by (subst w1; simpl; apply lookup_insert_eq).
    assert (Hs1 : _stopped p1 = true) by congruence.
    destruct (IH w1 self p1 Hp1 Hs1) as (p' & Hrun & E1 & E2 & E3 & E4 & E5 & E6).
    exists p'. rewrite Hrun. subst w1. simpl. rewrite insert_insert_eq.
    repeat split; try congruence.
    intros [Hc Hcs]%andb_prop. rewrite (E6 Hcs). subst p1.
    destruct c; simpl in *; done.
Qed.

(** C2 (as the code has it).  A call of [success()] or [failure()], in
    whatever state, leaves the stopped flag set.  From then on every
    sequence of [status()], [success()] and [failure()] calls hands no
    record to the logger and leaves the base message, the status text,
    the level and the stopped flag as they are; [success()] and
    [failure()] calls leave the whole store unchanged, while a [status()]
    call made more than 100 ms after [last_status] still records its
    clock reading as the new [last_status]. *)
Theorem stopped_is_terminal (w0 : World) (self : loc) (p0 : Progress)
    (stop : ProgressCall) (cs : list ProgressCall) :
  heap w0 !! self = Some p0 →
  is_status stop = false →
  ∃ w p,
    call self stop w0 = (Ok tt, w)
    ∧ heap w !! self = Some p
    ∧ _stopped p = true
    ∧ (∃ p', calls self cs w = (Ok tt, set_heap (<[self := p']> (heap w)) w)
           ∧ sink (set_heap (<[self := p']> (heap w)) w) = sink w
           ∧ _status p' = _status p
           ∧ _level p' = _level p
           ∧ _stopped p' = true
           ∧ _msg p' = _msg p
           ∧ _logger p' = _logger p
           ∧ (forallb (fun c => negb (is_status c)) cs = true → p' = p))
    ∧ (∀ c, call self c w
            = (Ok tt, set_heap (<[self := after_stopped_call c p]> (heap w)) w)).
Proof.
  intros Hp0 Hstop.
  destruct (call_stops w0 self p0 stop Hp0 Hstop) as (w & p & Hrun & Hp & Hs).
  exists w, p. split; [done|]. split; [done|]. split; [done|]. split.
  - destruct (calls_stopped cs w self p Hp Hs)
      as (p' & Hcs & E1 & E2 & E3 & E4 & E5 & E6).
    exists p'. repeat split; done.
  - intros c. by apply call_stopped.
Qed.

Lemma stopped_is_terminal_witness :
  ∃ p',
    calls 0 [CallStatus 1700000000 "late" [] no_kwargs;
             CallFailure "Failed" [] no_kwargs;
             CallSuccess "Done" [] no_kwargs] done_world
    = (Ok tt, set_heap (<[0 := p']> (heap done_world)) done_world)
    ∧ sink (set_heap (<[0 := p']> (heap done_world)) done_world) = sink done_world
    ∧ _status p' = "" ∧ _level p' = INFO ∧ _stopped p' = true.
Proof.
  destruct (stopped_is_terminal working_world 0 working_progress
              (CallSuccess "Done" [] no_kwargs)
              [CallStatus 1700000000 "late" [] no_kwargs;
               CallFailure "Failed" [] no_kwargs;
               CallSuccess "Done" [] no_kwargs] working_world_heap eq_refl)
    as (w & p & Hstop & Hp & _ & (p' & Hrun & Hsink & Hst & Hlv & Hsp & _) & _).
  assert (w = done_world) as ->.
  { unfold done_world. simpl in Hstop. by rewrite Hstop. }
  assert (Hd : Some p = Some done_progress) by (rewrite <- Hp; vm_compute; reflexivity).
  injection Hd as ->.
  exists p'. repeat split; assumption.
Defined.

(** C2 as stated fails on the timestamp: after [success()], a [status()]
    call made more than 100 ms after [last_status] emits nothing but
    replaces [last_status] (here [0]) by its clock reading. *)
Lemma stopped_status_moves_timestamp :
  let w' := (Progress_status 0 1700000000 "late" [] no_kwargs done_world).2 in
  _stopped <$> heap done_world !! 0 = Some true
  ∧ last_status <$> heap done_world !! 0 = Some 0%Q
  ∧ sink w' = sink done_world
  ∧ last_status <$> heap w' !! 0 = Some 1700000000%Q
  ∧ last_status <$> heap w' !! 0 ≠ last_status <$> heap done_world !! 0.
Proof.
  vm_compute. repeat split; congruence.
Qed.

(** ** Progress as a context manager *)

Lemma Progress_success_active w self p status args kwargs :
  heap w !! self = Some p → _stopped p = false →
  ∃ c, Progress_success self status args kwargs w
         = (Ok tt, set_heap (<[self := set_stopped true p]> (heap w)) (emit c w))
     ∧ lc_msg c = composed (_msg p) status
     ∧ lc_args c = args
     ∧ lc_msgtype c = Some (default (VStr "success") (kw_attr "pwnlib_msgtype" kwargs))
     ∧ lc_progress c = Some (default (VRef self) (kw_attr "pwnlib_progress" kwargs)).
Proof.
  intros Hp Hs. unfold Progress_success, bind.
  destruct (Progress__log_active self status args kwargs (VStr "success") w p Hp Hs)
    as (c & -> & _ & _ & Hmsg & Hargs & Htag & Href).
  exists c. unfold setself. simpl heap.
  rewrite (alter_lookup_insert _ _ _ _ Hp). repeat split; done.
Qed.

Lemma Progress_failure_active w self p status args kwargs :
  heap w !! self = Some p → _stopped p = false →
  ∃ c, Progress_failure self status args kwargs w
         = (Ok tt, set_heap (<[self := set_stopped true p]> (heap w)) (emit c w))
     ∧ lc_msg c = composed (_msg p) status
     ∧ lc_args c = args
     ∧ lc_msgtype c = Some (default (VStr "failure") (kw_attr "pwnlib_msgtype" kwargs))
     ∧ lc_progress c = Some (default (VRef self) (kw_attr "pwnlib_progress" kwargs)).
Proof.
  intros Hp Hs. unfold Progress_failure, bind.
  destruct (Progress__log_active self status args kwargs (VStr "failure") w p Hp Hs)
    as (c & -> & _ & _ & Hmsg & Hargs & Htag & Href).
  exists c. unfold setself. simpl heap.
  rewrite (alter_lookup_insert _ _ _ _ Hp). repeat split; done.
Qed.

Lemma tagged_count_app t l1 l2 :
  tagged_count t (l1 ++ l2) = tagged_count t l1 + tagged_count t l2.
Proof. unfold tagged_count. by rewrite filter_app, length_app. Qed.

Lemma tagged_count_other t t' l :
  t ≠ t' → Forall (λ c, lc_msgtype c = Some (VStr t')) l → tagged_count t l = 0.
Proof.
  intros Hne Hall. unfold tagged_count. induction Hall as [|c l Hc _ IH]; [done|].
  rewrite filter_cons_False; [done|]. rewrite Hc. congruence.
Qed.

Lemma tagged_count_one t c :
  lc_msgtype c = Some (VStr t) → tagged_count t [c] = 1.
Proof.
  intros Hc. unfold tagged_count. by rewrite filter_cons_True.
Qed.

(** Status updates on a running job: the job stays running, and whatever
    reaches the logger is tagged ['status']. *)
Lemma status_calls_active cs : ∀ w self p,
  heap w !! self = Some p → _stopped p = false →
  forallb is_status cs = true →
  Forall (λ c, unreserved (call_kwargs c)) cs →
  ∃ p' updates,
    calls self cs w
      = (Ok tt, {| heap := <[self := p']> (heap w);
                   _one_time_infos := _one_time_infos w;
                   _one_time_warnings := _one_time_warnings w;
                   sink := sink w ++ updates |})
    ∧ _stopped p' = false
    ∧ _msg p' = _msg p
    ∧ Forall (λ c, lc_msgtype c = Some (VStr "status")
                   ∧ lc_progress c = Some (VRef self)) updates.
Proof.
  induction cs as [|c cs IH]; intros w self p Hp Hs Hst Hkw.
  - exists p, []. simpl. unfold ret. rewrite app_nil_r, insert_id by done.
    destruct w; repeat split; done.
  - simpl in Hst. apply andb_prop in Hst as [Hc Hcs].
    apply Forall_cons in Hkw as [Hk Hkw].
    destruct c as [now st args kw| |]; try discriminate. simpl in Hk.
    simpl. unfold bind.
    destruct Hk as [Hmt Hpr].
    destruct (Qlt_le_dec (1 # 10) (now - last_status p)) as [Hlt|Hle].
    + destruct (Progress_status_accepted w self p now st args kw Hp Hs Hlt)
        as (c & -> & _ & _ & Htag & Href).
      rewrite Hmt in Htag. rewrite Hpr in Href.
      set (w1 := emit c _).
      destruct (IH w1 self (set_last_status now p))
        as (p' & ups & -> & Hs' & Hmsg' & Hups);
        [subst w1; simpl; apply lookup_insert_eq|done..|].
      exists p', (c :: ups). subst w1. simpl.
      rewrite insert_insert_eq, <- app_assoc. simpl.
      repeat split; [done|done|]. by constructor.
    + rewrite (Progress_status_dropped w self p now st args kw Hp Hle).
      destruct (IH w self p) as (p' & ups & -> & Hs' & Hmsg' & Hups); [done..|].
      by exists p', ups.
Qed.

(** C3.  When a [Progress] that is still running is used in a [with]
    block whose body only updates the status: leaving the block normally
    calls [success()] and leaving it through a propagating exception calls
    [failure()], after which the exception keeps propagating.  In the
    second case the block as a whole hands the logger exactly one record
    tagged ['failure'] and none tagged ['success'] (and the other way
    round in the first case), and the job ends up stopped. *)
Theorem scoped_exit (w : World) (self : loc) (p : Progress)
    (cs : list ProgressCall) :
  heap w !! self = Some p →
  _stopped p = false →
  forallb is_status cs = true →
  Forall (λ c, unreserved (call_kwargs c)) cs →
  (∀ e, ∃ w' updates f,
      with_Progress self (scope_body cs (Some e)) w = (Raise e, w')
      ∧ sink w' = sink w ++ updates ++ [f]
      ∧ lc_msgtype f = Some (VStr "failure")
      ∧ lc_progress f = Some (VRef self)
      ∧ lc_msg f = composed (_msg p) "Failed"
      ∧ tagged_count "failure" (updates ++ [f]) = 1
      ∧ tagged_count "success" (updates ++ [f]) = 0
      ∧ _stopped <$> heap w' !! self = Some true)
  ∧ (∃ w' updates s,
      with_Progress self (scope_body cs None) w = (Ok tt, w')
      ∧ sink w' = sink w ++ updates ++ [s]
      ∧ lc_msgtype s = Some (VStr "success")
      ∧ lc_progress s = Some (VRef self)
      ∧ lc_msg s = composed (_msg p) "Done"
      ∧ tagged_count "success" (updates ++ [s]) = 1
      ∧ tagged_count "failure" (updates ++ [s]) = 0
      ∧ _stopped <$> heap w' !! self = Some true).
Proof.
  intros Hp Hs Hst Hkw.
  destruct (status_calls_active cs w self p Hp Hs Hst Hkw)
    as (p' & ups & Hrun & Hs' & Hmsg' & Hups).
  assert (Hstatus : Forall (λ c, lc_msgtype c = Some (VStr "status")) ups).
  { eapply Forall_impl; [exact Hups|]. by intros c [? _]. }
  set (w1 := {| heap := <[self := p']> (heap w);
                _one_time_infos := _one_time_infos w;
                _one_time_warnings := _one_time_warnings w;
                sink := sink w ++ ups |}) in Hrun.
  assert (Hp1 : heap w1 !! self = Some p') by (subst w1; simpl; apply lookup_insert_eq).
  split.
  - intros e.
    destruct (Progress_failure_active w1 self p' "Failed" [] no_kwargs Hp1 Hs')
      as (f & Hfail & Hmsg & _ & Htag & Href).
    simpl in Htag, Href.
    eexists _, ups, f. split.
    { unfold with_Progress, Progress___enter__, bind, ret, scope_body, bind, raise.
      rewrite Hrun. simpl. unfold bind. rewrite Hfail. reflexivity. }
    simpl. rewrite lookup_insert_eq, <- app_assoc.
    repeat split; try done.
    + congruence.
    + rewrite tagged_count_app, (tagged_count_other "failure" "status") by done.
      by rewrite tagged_count_one.
    + rewrite tagged_count_app, (tagged_count_other "success" "status") by done.
      apply (tagged_count_other "success" "failure"); [done|]. by repeat constructor.
  - destruct (Progress_success_active w1 self p' "Done" [] no_kwargs Hp1 Hs')
      as (s & Hsucc & Hmsg & _ & Htag & Href).
    simpl in Htag, Href.
    eexists _, ups, s. split.
    { unfold with_Progress, Progress___enter__, bind, ret, scope_body, bind, ret.
      rewrite Hrun. simpl. unfold bind. rewrite Hsucc. reflexivity. }
    simpl. rewrite lookup_insert_eq, <- app_assoc.
    repeat split; try done.
    + congruence.
    + rewrite tagged_count_app, (tagged_count_other "success" "status") by done.
      by rewrite tagged_count_one.
    + rewrite tagged_count_app, (tagged_count_other "failure" "status") by done.
      apply (tagged_count_other "failure" "success"); [done|]. by repeat constructor.
Qed.

(** The example of the docstring of [Logger.progress], whose last statement
    divides by zero; the second update comes 50 ms after the first. *)
Lemma scoped_exit_witness :
  ∃ w' updates f,
    with_Progress 0
      (scope_body [CallStatus 1700000000 "At 0" [] no_kwargs;
                   CallStatus (1700000000 + (5 # 100)) "At 1" [] no_kwargs;
                   CallStatus (1700000001) "At 2" [] no_kwargs]
                  (Some ZeroDivisionError)) working_world
      = (Raise ZeroDivisionError, w')
    ∧ sink w' = sink working_world ++ updates ++ [f]
    ∧ tagged_count "failure" (updates ++ [f]) = 1
    ∧ tagged_count "success" (updates ++ [f]) = 0.
Proof.
  destruct (scoped_exit working_world 0 working_progress
              [CallStatus 1700000000 "At 0" [] no_kwargs;
               CallStatus (1700000000 + (5 # 100)) "At 1" [] no_kwargs;
               CallStatus (1700000001) "At 2" [] no_kwargs]
              working_world_heap eq_refl eq_refl) as [Hexc _].
  { repeat constructor. }
  destruct (Hexc ZeroDivisionError)
    as (w' & updates & f & Hrun & Hsink & _ & _ & _ & Hone & Hnone & _).
  exists w', updates, f. repeat split; assumption.
Defined.

(** ** One-time messages *)

Lemma first_occurrences_app seen l1 l2 :
  first_occurrences seen (l1 ++ l2)
  = first_occurrences seen l1 ++ first_occurrences (list_to_set l1 ∪ seen) l2.
Proof.
  revert seen. induction l1 as [|m l1 IH]; intros seen; simpl.
  - f_equal. set_solver.
  - destruct (decide (m ∈ seen)) as [Hin|Hnin].
    + rewrite IH. do 2 f_equal. set_solver.
    + simpl. rewrite IH. do 3 f_equal. set_solver.
Qed.

Lemma first_occurrences_fresh seen l m :
  m ∈ first_occurrences seen l → m ∈ l ∧ m ∉ seen.
Proof.
  revert seen. induction l as [|x l IH]; intros seen; simpl.
  - by intros ?%elem_of_nil.
  - destruct (decide (x ∈ seen)) as [Hin|Hnin].
    + intros [? ?]%IH. split; [by right|done].
    + intros [->|[? ?]%IH]%elem_of_cons; [split; [by left|done]|].
      split; [by right|set_solver].
Qed.

Lemma first_occurrences_NoDup seen l : NoDup (first_occurrences seen l).
Proof.
  revert seen. induction l as [|x l IH]; intros seen; simpl.
  - constructor.
  - destruct (decide (x ∈ seen)); [apply IH|].
    constructor; [|apply IH].
    intros [_ Hx]%first_occurrences_fresh. set_solver.
Qed.

Lemma first_occurrences_distinct seen l :
  NoDup l → (∀ m, m ∈ l → m ∉ seen) → first_occurrences seen l = l.
Proof.
  intros Hnd. revert seen. induction Hnd as [|x l Hx _ IH]; intros seen Hseen; simpl.
  - done.
  - destruct (decide (x ∈ seen)) as [Hin|_].
    + exfalso. apply (Hseen x); [by left|done].
    + f_equal. apply IH. intros m Hm. specialize (Hseen m (list_elem_of_further _ _ _ Hm)).
      set_solver.
Qed.

Lemma first_occurrences_elem seen l m :
  m ∈ l → m ∈ seen ∨ m ∈ first_occurrences seen l.
Proof.
  revert seen. induction l as [|x l IH]; intros seen; simpl.
  - by intros ?%elem_of_nil.
  - intros [->|Hm]%elem_of_cons.
    + destruct (decide (x ∈ seen)); [by left|right; by left].
    + destruct (decide (x ∈ seen)); [by apply IH|].
      destruct (IH ({[x]} ∪ seen) Hm) as [Hin|Hin]; [|right; by right].
      apply elem_of_union in Hin as [->%elem_of_singleton|?]; [right; by left|by left].
Qed.

Section Once_facts.

Variable percent : string → list PyVal → result string.

Lemma Logger_info_once_raises self message args kwargs w e :
  percent message args = Raise e →
  Logger_info_once percent self message args kwargs w = (Raise e, w).
Proof. intros H. unfold Logger_info_once, bind, lift. by rewrite H. Qed.

Lemma Logger_info_once_skips self message args kwargs w m :
  percent message args = Ok m → m ∈ _one_time_infos w →
  Logger_info_once percent self message args kwargs w = (Ok tt, w).
Proof.
  intros H Hin. unfold Logger_info_once, bind, lift. rewrite H.
  by destruct (decide _).
Qed.

Lemma Logger_info_once_emits self message args kwargs w m :
  percent message args = Ok m → m ∉ _one_time_infos w →
  ∃ c w', Logger_info_once percent self message args kwargs w = (Ok tt, w')
    ∧ sink w' = sink w ++ [c]
    ∧ _one_time_infos w' = {[ m ]} ∪ _one_time_infos w
    ∧ _one_time_warnings w' = _one_time_warnings w
    ∧ heap w' = heap w
    ∧ lc_logger c = Logger__logger self
    ∧ lc_level c = INFO
    ∧ lc_msg c = message
    ∧ lc_args c = args
    ∧ lc_msgtype c = Some (default (VStr "info_once") (kw_attr "pwnlib_msgtype" kwargs)).
Proof.
  intros H Hnin. unfold Logger_info_once, bind at 1. unfold lift. rewrite H.
  destruct (decide _) as [|_]; [done|].
  unfold bind, one_time_infos_add.
  match goal with |- context [Logger__log ?a ?b ?c ?d ?e ?f ?g ?w1] =>
    destruct (Logger__log_run a b c d e f g w1)
      as (r & -> & Hlog & Hlvl & Hmsg & Hargs & Htag & _) end.
  exists r. eexists. split; [reflexivity|]. repeat split; done.
Qed.

Lemma Logger_warning_once_raises self message args kwargs w e :
  percent message args = Raise e →
  Logger_warning_once percent self message args kwargs w = (Raise e, w).
Proof. intros H. unfold Logger_warning_once, bind, lift. by rewrite H. Qed.

Lemma Logger_warning_once_skips self message args kwargs w m :
  percent message args = Ok m → m ∈ _one_time_warnings w →
  Logger_warning_once percent self message args kwargs w = (Ok tt, w).
Proof.
  intros H Hin. unfold Logger_warning_once, bind, lift. rewrite H.
  by destruct (decide _).
Qed.

Lemma Logger_warning_once_emits self message args kwargs w m :
  percent message args = Ok m → m ∉ _one_time_warnings w →
  ∃ c w', Logger_warning_once percent self message args kwargs w = (Ok tt, w')
    ∧ sink w' = sink w ++ [c]
    ∧ _one_time_warnings w' = {[ m ]} ∪ _one_time_warnings w
    ∧ _one_time_infos w' = _one_time_infos w
    ∧ heap w' = heap w
    ∧ lc_logger c = Logger__logger self
    ∧ lc_level c = WARNING
    ∧ lc_msg c = message
    ∧ lc_args c = args
    ∧ lc_msgtype c = Some (default (VStr "warning_once") (kw_attr "pwnlib_msgtype" kwargs)).
Proof.
  intros H Hnin. unfold Logger_warning_once, bind at 1. unfold lift. rewrite H.
  destruct (decide _) as [|_]; [done|].
  unfold bind, one_time_warnings_add.
  match goal with |- context [Logger__log ?a ?b ?c ?d ?e ?f ?g ?w1] =>
    destruct (Logger__log_run a b c d e f g w1)
      as (r & -> & Hlog & Hlvl & Hmsg & Hargs & Htag & _) end.
  exists r. eexists. split; [reflexivity|]. repeat split; done.
Qed.

(** One call, seen from the records of kind [k]. *)
Lemma once_call_cases (c : OnceCall) (w : World) :
  kw_attr "pwnlib_msgtype" (oc_kwargs c) = None →
  match percent (oc_message c) (oc_args c) with
  | Raise e => once_call percent c w = (Raise e, w)
  | Ok m =>
      if decide (m ∈ once_set (oc_kind c) w) then
        once_call percent c w = (Ok tt, w)
      else
        ∃ r w', once_call percent c w = (Ok tt, w')
          ∧ sink w' = sink w ++ [r]
          ∧ once_set (oc_kind c) w' = {[ m ]} ∪ once_set (oc_kind c) w
          ∧ (∀ k, k ≠ oc_kind c → once_set k w' = once_set k w)
          ∧ heap w' = heap w
          ∧ lc_logger r = Logger__logger (oc_logger c)
          ∧ lc_msg r = oc_message c
          ∧ lc_args r = oc_args c
          ∧ lc_msgtype r = Some (VStr (once_tag (oc_kind c)))
  end.
Proof.
  intros Hkw. destruct (percent _ _) as [m|e] eqn:Hm.
  - destruct (decide _) as [Hin|Hnin].
    + unfold once_call. destruct (oc_kind c); simpl in Hin.
      * by eapply Logger_info_once_skips.
      * by eapply Logger_warning_once_skips.
    + unfold once_call. destruct (oc_kind c) eqn:Hk; simpl in Hnin.
      * destruct (Logger_info_once_emits (oc_logger c) _ _ (oc_kwargs c) w m Hm Hnin)
          as (r & w' & -> & Hsink & Hset & Hoth & Hheap & Hlog & _ & Hmsg & Hargs & Htag).
        rewrite Hkw in Htag. exists r, w'. repeat split; try done.
        intros [] ?; done.
      * destruct (Logger_warning_once_emits (oc_logger c) _ _ (oc_kwargs c) w m Hm Hnin)
          as (r & w' & -> & Hsink & Hset & Hoth & Hheap & Hlog & _ & Hmsg & Hargs & Htag).
        rewrite Hkw in Htag. exists r, w'. repeat split; try done.
        intros [] ?; done.
  - unfold once_call. destruct (oc_kind c).
    + by apply Logger_info_once_raises.
    + by apply Logger_warning_once_raises.
Qed.

Lemma once_tag_inj k k' : once_tag k = once_tag k' → k = k'.
Proof. by destruct k, k'. Qed.

Lemma once_call_step (k : OnceKind) (c : OnceCall) (w : World) :
  kw_attr "pwnlib_msgtype" (oc_kwargs c) = None →
  let w' := (once_call percent c w).2 in
  once_keys percent k (sink w')
    = once_keys percent k (sink w)
      ++ first_occurrences (once_set k w) (call_keys percent k [c])
  ∧ once_set k w' = list_to_set (call_keys percent k [c]) ∪ once_set k w.
Proof.
  intros Hkw. pose proof (once_call_cases c w Hkw) as Hc.
  unfold call_keys. simpl.
  destruct (percent (oc_message c) (oc_args c)) as [m|e] eqn:Hm.
  - destruct (decide (m ∈ once_set (oc_kind c) w)) as [Hin|Hnin].
    + rewrite Hc. simpl. destruct (decide (oc_kind c = k)) as [<-|Hne]; simpl.
      * rewrite decide_True by done. rewrite app_nil_r. split; [done|set_solver].
      * rewrite app_nil_r. split; [done|set_solver].
    + destruct Hc as (r & w' & -> & Hsink & Hset & Hoth & _ & _ & Hmsg & Hargs & Htag).
      simpl. rewrite Hsink. unfold once_keys at 1. rewrite omap_app. simpl.
      rewrite Htag, Hmsg, Hargs, Hm.
      destruct (decide (oc_kind c = k)) as [<-|Hne]; simpl.
      * rewrite decide_True by done. rewrite decide_False by done.
        split; [done|]. rewrite Hset. set_solver.
      * rewrite decide_False by (intros [= ?%once_tag_inj]; done).
        simpl. split; [done|]. rewrite Hoth by done. set_solver.
  - rewrite Hc. simpl. destruct (decide (oc_kind c = k)); simpl;
      rewrite app_nil_r; split; (done || set_solver).
Qed.

Lemma call_keys_cons (k : OnceKind) (c : OnceCall) (cs : list OnceCall) :
  call_keys percent k (c :: cs)
  = call_keys percent k [c] ++ call_keys percent k cs.
Proof. unfold call_keys. by rewrite <- omap_app. Qed.

Lemma once_calls_keys (k : OnceKind) (cs : list OnceCall) : ∀ w,
  Forall (λ c, kw_attr "pwnlib_msgtype" (oc_kwargs c) = None) cs →
  once_keys percent k (sink (once_calls percent cs w))
    = once_keys percent k (sink w)
      ++ first_occurrences (once_set k w) (call_keys percent k cs)
  ∧ once_set k (once_calls percent cs w)
    = list_to_set (call_keys percent k cs) ∪ once_set k w.
Proof.
  induction cs as [|c cs IH]; intros w Hkw.
  - simpl. rewrite app_nil_r. split; [done|set_solver].
  - apply Forall_cons in Hkw as [Hc Hcs].
    rewrite (call_keys_cons k c cs).
    change (once_calls percent (c :: cs) w)
      with (once_calls percent cs (once_call percent c w).2).
    destruct (once_call_step k c w Hc) as [Hkeys Hset].
    destruct (IH (once_call percent c w).2 Hcs) as [-> ->].
    rewrite Hkeys, Hset.
    rewrite first_occurrences_app, <- app_assoc. split; [done|].
    rewrite list_to_set_app_L. set_solver.
Qed.

End Once_facts.

Lemma first_occurrences_set seen l :
  list_to_set (first_occurrences seen l) ∪ seen =@{gset string} list_to_set l ∪ seen.
Proof.
  apply set_eq. intros m. rewrite !elem_of_union, !elem_of_list_to_set. split.
  - intros [[? _]%first_occurrences_fresh|?]; [by left|by right].
  - intros [Hm|?]; [|by right].
    destruct (first_occurrences_elem seen l m Hm); [by right|by left].
Qed.

(** C4.  Take any sequence of [info_once] and [warning_once] calls, on any
    [Logger] instances, made by a process that starts with both sets
    empty, and look at one of the two kinds.  The records of that kind
    that reached the logger render, in order, to the strings its calls
    rendered to with every repetition dropped: no rendered string is
    emitted twice, every rendered string is emitted, and calls that
    render to pairwise distinct strings are all emitted.  The shared set
    holds exactly the emitted strings.  A further call that renders to a
    string emitted before returns with the store unchanged; one that
    renders to a new string adds it to the set and hands one record to
    the logger. *)
Theorem once_dedup (percent : string → list PyVal → result string)
    (k : OnceKind) (cs : list OnceCall) :
  Forall (λ c, kw_attr "pwnlib_msgtype" (oc_kwargs c) = None) cs →
  let w := once_calls percent cs initial_world in
  once_keys percent k (sink w) = first_occurrences ∅ (call_keys percent k cs)
  ∧ NoDup (once_keys percent k (sink w))
  ∧ (∀ m, m ∈ call_keys percent k cs ↔ m ∈ once_keys percent k (sink w))
  ∧ (NoDup (call_keys percent k cs) →
       once_keys percent k (sink w) = call_keys percent k cs)
  ∧ once_set k w = list_to_set (once_keys percent k (sink w))
  ∧ (∀ c m,
       oc_kind c = k →
       kw_attr "pwnlib_msgtype" (oc_kwargs c) = None →
       percent (oc_message c) (oc_args c) = Ok m →
       (m ∈ once_keys percent k (sink w) → once_call percent c w = (Ok tt, w))
       ∧ (m ∉ once_keys percent k (sink w) →
            ∃ r w', once_call percent c w = (Ok tt, w')
              ∧ sink w' = sink w ++ [r]
              ∧ once_set k w' = {[ m ]} ∪ once_set k w
              ∧ lc_logger r = Logger__logger (oc_logger c)
              ∧ lc_msg r = oc_message c
              ∧ lc_args r = oc_args c
              ∧ lc_msgtype r = Some (VStr (once_tag k)))).
Proof.
  intros Hkw w.
  destruct (once_calls_keys percent k cs initial_world Hkw) as [Hkeys Hset].
  fold w in Hkeys, Hset. simpl in Hkeys.
  assert (Hinit : once_set k initial_world = ∅) by (by destruct k).
  rewrite Hinit in Hkeys, Hset.
  assert (Hset' : once_set k w = list_to_set (once_keys percent k (sink w))).
  { rewrite Hset, Hkeys.
    pose proof (first_occurrences_set ∅ (call_keys percent k cs)) as E.
    rewrite !(right_id_L ∅ (∪)) in E. rewrite (right_id_L ∅ (∪)). by symmetry. }
  assert (Hiff : ∀ m, m ∈ call_keys percent k cs ↔ m ∈ once_keys percent k (sink w)).
  { intros m. rewrite <- (elem_of_list_to_set (C := gset string) m (once_keys _ _ _)).
    rewrite <- Hset', Hset. rewrite elem_of_union, elem_of_list_to_set. set_solver. }
  split; [done|]. split; [rewrite Hkeys; apply first_occurrences_NoDup|].
  split; [done|]. split.
  { intros Hnd. rewrite Hkeys. apply first_occurrences_distinct; [done|set_solver]. }
  split; [done|].
  intros c m Hk Hc Hm. pose proof (once_call_cases percent c w Hc) as Hcases.
  rewrite Hm, Hk, Hset' in Hcases. split; intros Hin.
  - rewrite decide_True in Hcases; [done|]. by apply elem_of_list_to_set.
  - rewrite decide_False in Hcases by (by rewrite elem_of_list_to_set).
    destruct Hcases as (r & w' & Hrun & Hsink & Hadd & _ & _ & Hlog & Hmsg & Hargs & Htag).
    exists r, w'. rewrite Hset'. repeat split; done.
Qed.

Lemma once_dedup_witness :
  once_keys py_percent InfoOnce
    (sink (once_calls py_percent
             [connected "pwnlib" "bob"; connected "pwnlib.tubes" "bob";
              connected "pwnlib" "alice"; connected "pwnlib" "bob"]
             initial_world))
  = ["User bob connected"; "User alice connected"]
  ∧ length (sink (once_calls py_percent
                    [connected "pwnlib" "bob"; connected "pwnlib" "bob";
                     connected "pwnlib" "bob"]
                    initial_world)) = 1
  ∧ length (sink (once_calls py_percent
                    [connected "pwnlib" "bob"; connected "pwnlib" "alice"]
                    initial_world)) = 2.
Proof.
  split; [|split; vm_compute; reflexivity].
  destruct (once_dedup py_percent InfoOnce
              [connected "pwnlib" "bob"; connected "pwnlib.tubes" "bob";
               connected "pwnlib" "alice"; connected "pwnlib" "bob"])
    as (Hkeys & _).
  { repeat constructor. }
  rewrite Hkeys. vm_compute. reflexivity.
Defined.

(** ** The level of the root logger *)

(** C5.  While the level of the root logger is [NOTSET] (no explicit
    level), its effective level is [min(context.log_level, INFO)]: [INFO]
    when the global level is [WARNING], [DEBUG] when it is [DEBUG].  Once
    an explicit level such as [ERROR] has been set, that level is the
    effective level whatever the global level is. *)
Theorem level_resolution (log_level : Z) (self : RootLogger) (level : Z) :
  (root__level self = NOTSET → getter log_level self = Z.min log_level INFO)
  ∧ getter log_level rootlogger = Z.min log_level INFO
  ∧ getter WARNING rootlogger = INFO
  ∧ getter DEBUG rootlogger = DEBUG
  ∧ (level ≠ NOTSET → getter log_level (setter self level) = level)
  ∧ getter log_level (setter self ERROR) = ERROR.
Proof.
  unfold getter, setter, NOTSET. simpl. repeat split.
  - by intros ->.
  - intros Hne. by destruct (Z.eqb_spec level 0).
Qed.

Lemma level_resolution_witness :
  getter CRITICAL (mkRootLogger NOTSET) = INFO
  ∧ getter DEBUG (setter rootlogger WARNING) = WARNING.
Proof.
  destruct (level_resolution CRITICAL (mkRootLogger NOTSET) WARNING) as (H1 & _).
  destruct (level_resolution DEBUG rootlogger WARNING) as (_ & _ & _ & _ & H2 & _).
  split.
  - rewrite H1; reflexivity.
  - apply H2. unfold WARNING, NOTSET. lia.
Defined.

(** ** Logger.error *)

(** C8 (as the code has it).  [error(msg, *args)] hands one record to the
    logger, at level [ERROR] and tagged ['error'], and never returns
    normally: when [msg % args] has a value, it raises [PwnlibException]
    carrying that value; when [msg % args] itself raises, that exception
    is the one that propagates. *)
Theorem Logger_error_raises (percent : string → list PyVal → result string)
    (self : Logger) (message : string) (args : list PyVal) (kwargs : Kwargs)
    (w : World) :
  kw_attr "pwnlib_msgtype" kwargs = None →
  ∃ c e,
    (∀ A, @Logger_error percent A self message args kwargs w = (Raise e, emit c w))
    ∧ lc_logger c = Logger__logger self
    ∧ lc_level c = ERROR
    ∧ lc_msg c = message
    ∧ lc_args c = args
    ∧ lc_msgtype c = Some (VStr "error")
    ∧ (∀ m, percent message args = Ok m → e = PwnlibException m)
    ∧ (∀ e', percent message args = Raise e' → e = e').
Proof.
  intros Hkw.
  destruct (Logger__log_run self ERROR message args kwargs (VStr "error") VNone w)
    as (c & Hrun & Hlog & Hlvl & Hmsg & Hargs & Htag & _).
  rewrite Hkw in Htag.
  exists c, (match percent message args with
             | Ok m => PwnlibException m
             | Raise e' => e'
             end).
  split.
  { intros A. unfold Logger_error, bind at 1. rewrite Hrun.
    unfold bind, lift, raise. by destruct (percent message args). }
  repeat split; try done.
  - by intros m ->.
  - by intros e' ->.
Qed.

Lemma Logger_error_raises_witness :
  ∃ c, @Logger_error py_percent unit (mkLogger "pwnlib")
         "cannot open %s" [VStr "/dev/null"] no_kwargs initial_world
       = (Raise (PwnlibException "cannot open /dev/null"), emit c initial_world).
Proof.
  destruct (Logger_error_raises py_percent (mkLogger "pwnlib")
              "cannot open %s" [VStr "/dev/null"] no_kwargs initial_world eq_refl)
    as (c & e & Hrun & _ & _ & _ & _ & _ & Hok & _).
  exists c. rewrite (Hrun unit). by rewrite (Hok _ eq_refl).
Defined.

(** C8 as stated fails: [error('progress at 100%')] emits its record, and
    then [msg % ()] raises [ValueError] ("incomplete format"); no
    [PwnlibException] is raised. *)
Lemma Logger_error_format_failure :
  (@Logger_error py_percent unit (mkLogger "pwnlib")
     "progress at 100%" [] no_kwargs initial_world).1
  = Raise (ValueError "incomplete format")
  ∧ length (sink (@Logger_error py_percent unit (mkLogger "pwnlib")
                    "progress at 100%" [] no_kwargs initial_world).2) = 1
  ∧ ∀ m, (@Logger_error py_percent unit (mkLogger "pwnlib")
            "progress at 100%" [] no_kwargs initial_world).1
         ≠ Raise (PwnlibException m).
Proof.
  vm_compute. repeat split. intros m. discriminate.
Qed.

(** ** The constructor *)

Lemma Progress___init___run w logger msg status level args kwargs :
  let self : loc := fresh (dom (heap w)) in
  let p := {| _logger := logger; _msg := msg; _status := status;
              _level := level; _stopped := false; last_status := 0 |} in
  heap w !! self = None
  ∧ ∃ c, Progress___init__ logger msg status level args kwargs w
         = (Ok self, emit c (set_heap (<[self := p]> (heap w)) w))
       ∧ lc_logger c = Logger__logger logger
       ∧ lc_level c = level
       ∧ lc_msg c = composed msg status
       ∧ lc_args c = args
       ∧ lc_msgtype c = Some (default (VStr "status") (kw_attr "pwnlib_msgtype" kwargs))
       ∧ lc_progress c = Some (default (VRef self) (kw_attr "pwnlib_progress" kwargs)).
Proof.
  intros self p. split.
  { apply not_elem_of_dom. apply is_fresh. }
  unfold Progress___init__. fold self. fold p.
  set (w0 := set_heap (<[self := p]> (heap w)) w).
  assert (Hp : heap w0 !! self = Some p) by (subst w0; simpl; apply lookup_insert_eq).
  destruct (Progress__log_active self status args kwargs (VStr "status") w0 p Hp eq_refl)
    as (c & Hrun & Hlog & Hlvl & Hmsg & Hargs & Htag & Href).
  exists c. unfold bind at 1. rewrite Hrun. unfold bind, setself, ret.
  split; [|repeat split; done].
  f_equal. subst w0. unfold emit, set_heap. simpl. f_equal.
  rewrite (alter_lookup_insert _ _ self p) by apply lookup_insert_eq.
  by rewrite insert_insert_eq.
Qed.

(** C9.  The constructor hands the initial record to the logger, tagged
    ['status'], and leaves [last_status] at 0.  Hence the first [status()]
    call on the new [Progress] emits a record whatever time has passed
    since the construction, which never reads the clock: all it takes is
    a clock reading [now] above 0.1, and [time.time()] counts the seconds
    since 1970. *)
Theorem first_status_not_throttled (w : World) (logger : Logger)
    (msg status : string) (level : Z) (args : list PyVal) (kwargs : Kwargs) :
  unreserved kwargs →
  ∃ self w1 c0 p,
    Progress___init__ logger msg status level args kwargs w = (Ok self, w1)
    ∧ heap w !! self = None
    ∧ sink w1 = sink w ++ [c0]
    ∧ lc_msgtype c0 = Some (VStr "status")
    ∧ lc_progress c0 = Some (VRef self)
    ∧ heap w1 !! self = Some p
    ∧ last_status p = 0%Q
    ∧ _stopped p = false
    ∧ ∀ (now : time) (text : string) (args' : list PyVal) (kwargs' : Kwargs),
        unreserved kwargs' →
        (1 # 10 < now)%Q →
        ∃ c w2,
          Progress_status self now text args' kwargs' w1 = (Ok tt, w2)
          ∧ sink w2 = sink w1 ++ [c]
          ∧ lc_msgtype c = Some (VStr "status")
          ∧ lc_progress c = Some (VRef self)
          ∧ lc_msg c = composed msg text
          ∧ last_status <$> heap w2 !! self = Some now.
Proof.
  intros [Hmt Hpr].
  destruct (Progress___init___run w logger msg status level args kwargs)
    as (Hfresh & c0 & Hrun & _ & _ & _ & _ & Htag & Href).
  rewrite Hmt in Htag. rewrite Hpr in Href.
  eexists _, _, c0, _. split; [exact Hrun|].
  split; [exact Hfresh|]. split; [reflexivity|]. split; [exact Htag|].
  split; [exact Href|]. split; [simpl; apply lookup_insert_eq|].
  split; [reflexivity|]. split; [reflexivity|].
  intros now text args' kwargs' Hkw Hnow.
  destruct Hkw as [Hmt' Hpr'].
  match goal with |- context [Progress_status ?s _ _ _ _ ?w1] =>
    destruct (Progress_status_accepted w1 s _ now text args' kwargs'
                (lookup_insert_eq _ _ _) eq_refl)
      as (c & Hst & Hmsg' & _ & Htag' & Href') end.
  { simpl. lra. }
  rewrite Hmt' in Htag'. rewrite Hpr' in Href'.
  exists c. eexists. split; [exact Hst|]. simpl.
  rewrite lookup_insert_eq. repeat split; done.
Qed.

Lemma first_status_not_throttled_witness :
  ∃ w1 c w2,
    Logger_progress (mkLogger "pwnlib") "Working" "" [] no_kwargs initial_world
      = (Ok 0, w1)
    ∧ Progress_status 0 1700000000 "Reticulating splines" [] no_kwargs w1 = (Ok tt, w2)
    ∧ sink w2 = sink w1 ++ [c]
    ∧ lc_msgtype c = Some (VStr "status").
Proof.
  destruct (first_status_not_throttled initial_world (mkLogger "pwnlib")
              "Working" "" INFO [] no_kwargs unreserved_no_kwargs)
    as (self & w1 & c0 & p & Hinit & _ & _ & _ & _ & _ & _ & _ & Hfirst).
  assert (self = 0) as -> by (vm_compute in Hinit; congruence).
  destruct (Hfirst 1700000000%Q "Reticulating splines" [] no_kwargs
              unreserved_no_kwargs) as (c & w2 & Hrun & Hsink & Htag & _).
  { vm_compute. reflexivity. }
  exists w1, c, w2. repeat split; assumption.
Defined.

(** ** Message composition *)

Lemma append_nil_r (s : string) : s +:+ "" = s.
Proof.
  induction s as [|a s IH]; [reflexivity|].
  change (String a (s +:+ "") = String a s). by rewrite IH.
Qed.

Lemma append_assoc (s1 s2 s3 : string) : (s1 +:+ s2) +:+ s3 = s1 +:+ s2 +:+ s3.
Proof.
  induction s1 as [|a s1 IH]; [reflexivity|].
  change (String a ((s1 +:+ s2) +:+ s3) = String a (s1 +:+ s2 +:+ s3)).
  by rewrite IH.
Qed.

Lemma truthy_nonempty (s : string) : s ≠ "" → truthy s = true.
Proof. by destruct s. Qed.

Lemma composed_both (base status : string) :
  base ≠ "" → status ≠ "" → composed base status = base +:+ ": " +:+ status.
Proof.
  intros Hb Hs. unfold composed.
  rewrite (truthy_nonempty _ Hb), (truthy_nonempty _ Hs). apply append_assoc.
Qed.

Lemma composed_empty_base (status : string) : composed "" status = status.
Proof. reflexivity. Qed.

Lemma composed_empty_status (base : string) : composed base "" = base.
Proof.
  unfold composed. simpl. rewrite andb_false_r. apply append_nil_r.
Qed.

(** Whatever one call on a [Progress] hands to the logger carries the
    composed message and the arguments of the call. *)
Lemma call_records w self p c :
  heap w !! self = Some p →
  ∃ new, sink (call self c w).2 = sink w ++ new
       ∧ (∀ r, r ∈ new →
            lc_msg r = composed (_msg p) (call_status c)
            ∧ lc_args r = call_args c)
       ∧ (_stopped p = false → is_status c = false → ∃ r, new = [r]).
Proof.
  intros Hp. destruct (_stopped p) eqn:Hs.
  { rewrite (call_stopped w self p c Hp Hs). exists []. simpl.
    rewrite app_nil_r. split; [done|]. split; [|done].
    by intros r ?%elem_of_nil. }
  destruct c as [now st args kw|st args kw|st args kw]; simpl.
  - unfold Progress_status, bind at 1. unfold getself at 1. rewrite Hp.
    destruct (Qlt_le_dec _ _) as [Hlt|Hle].
    + unfold bind, setself.
      match goal with |- context [Progress__log _ _ _ _ _ ?w1] =>
        destruct (Progress__log_active self st args kw (VStr "status") w1
                    (set_last_status now p))
          as (c & -> & _ & _ & Hmsg & Hargs & _) end;
        [by simpl; rewrite lookup_alter_eq, Hp|done|].
      exists [c]. simpl. split; [done|]. split; [|done].
      by intros r ->%list_elem_of_singleton.
    + exists []. simpl. rewrite app_nil_r. split; [done|]. split; [|done].
      by intros r ?%elem_of_nil.
  - destruct (Progress_success_active w self p st args kw Hp Hs)
      as (c & -> & Hmsg & Hargs & _).
    exists [c]. simpl. split; [done|]. split; [|by eauto].
    by intros r ->%list_elem_of_singleton.
  - destruct (Progress_failure_active w self p st args kw Hp Hs)
      as (c & -> & Hmsg & Hargs & _).
    exists [c]. simpl. split; [done|]. split; [|by eauto].
    by intros r ->%list_elem_of_singleton.
Qed.

(** C6.  Every record that [status()], [success()], [failure()] or the
    constructor of a [Progress] hands to the logger has as its message
    the base message, a colon, a space and the status when both are
    non-empty, and the status alone when the base message is empty; the
    arguments of the call go with it, so without arguments this is the
    text the record renders to.  A [Progress] created with base message
    ['Trying'] and status ['connecting'] starts with a record that
    renders to ['Trying: connecting']. *)
Theorem composition_base_and_status (w : World) (self : loc) (p : Progress)
    (c : ProgressCall) :
  heap w !! self = Some p →
  (∃ new, sink (call self c w).2 = sink w ++ new
        ∧ (_stopped p = false → is_status c = false → ∃ r, new = [r])
        ∧ ∀ r, r ∈ new →
            (_msg p ≠ "" → call_status c ≠ "" →
               lc_msg r = _msg p +:+ ": " +:+ call_status c)
            ∧ (_msg p = "" → lc_msg r = call_status c)
            ∧ lc_args r = call_args c
            ∧ (∀ percent, call_args c = [] → getMessage percent r = Ok (lc_msg r)))
  ∧ (∀ logger base status level args kwargs,
       ∃ self' w1 r,
         Progress___init__ logger base status level args kwargs w = (Ok self', w1)
         ∧ sink w1 = sink w ++ [r]
         ∧ (base ≠ "" → status ≠ "" → lc_msg r = base +:+ ": " +:+ status)
         ∧ (base = "" → lc_msg r = status)
         ∧ lc_args r = args)
  ∧ (∃ w1 r,
       Logger_progress (mkLogger "pwnlib") "Trying" "connecting" [] no_kwargs
         initial_world = (Ok 0, w1)
       ∧ sink w1 = [r]
       ∧ getMessage py_percent r = Ok "Trying: connecting").
Proof.
  intros Hp. split; [|split].
  - destruct (call_records w self p c Hp) as (new & Hsink & Hnew & Hone).
    exists new. split; [done|]. split; [done|].
    intros r Hr. destruct (Hnew r Hr) as [Hmsg Hargs]. repeat split.
    + intros Hb Hst. by rewrite Hmsg, composed_both.
    + intros Hb. by rewrite Hmsg, Hb.
    + done.
    + intros percent Hnil. unfold getMessage. by rewrite Hargs, Hnil.
  - intros logger base status level args kwargs.
    destruct (Progress___init___run w logger base status level args kwargs)
      as (_ & r & Hrun & _ & _ & Hmsg & Hargs & _).
    eexists _, _, r. split; [exact Hrun|]. split; [reflexivity|]. repeat split.
    + intros Hb Hst. by rewrite Hmsg, composed_both.
    + intros ->. by rewrite Hmsg.
    + done.
  - eexists _, _. vm_compute. repeat split.
Qed.

Lemma composition_base_and_status_witness :
  ∃ new, sink (call 0 (CallSuccess "Got a shell!" [] no_kwargs) working_world).2
         = sink working_world ++ new
       ∧ ∀ r, r ∈ new → lc_msg r = "Working: Got a shell!".
Proof.
  destruct (composition_base_and_status working_world 0 working_progress
              (CallSuccess "Got a shell!" [] no_kwargs) working_world_heap)
    as ((new & Hsink & _ & Hnew) & _).
  exists new. split; [exact Hsink|].
  intros r Hr. destruct (Hnew r Hr) as (Hboth & _).
  apply Hboth; discriminate.
Defined.

(** C10.  Every record that an operation of a [Progress] with a non-empty
    base message hands to the logger for an empty status has exactly the
    base message as its message, with no separator.  In particular
    [Logger.progress(message)] with the default status [''] starts with a
    record whose message is [message]. *)
Theorem composition_empty_status (w : World) (self : loc) (p : Progress)
    (c : ProgressCall) :
  heap w !! self = Some p →
  _msg p ≠ "" →
  call_status c = "" →
  (∃ new, sink (call self c w).2 = sink w ++ new
        ∧ (_stopped p = false → is_status c = false → ∃ r, new = [r])
        ∧ ∀ r, r ∈ new → lc_msg r = _msg p)
  ∧ (∀ logger message args kwargs,
       ∃ self' w1 r,
         Logger_progress logger message "" args kwargs w = (Ok self', w1)
         ∧ sink w1 = sink w ++ [r]
         ∧ lc_msg r = message
         ∧ lc_args r = args).
Proof.
  intros Hp Hb Hst. split.
  - destruct (call_records w self p c Hp) as (new & Hsink & Hnew & Hone).
    exists new. split; [done|]. split; [done|].
    intros r Hr. destruct (Hnew r Hr) as [Hmsg _].
    by rewrite Hmsg, Hst, composed_empty_status.
  - intros logger message args kwargs. unfold Logger_progress.
    destruct (Progress___init___run w logger message "" (default INFO (kw_level kwargs))
                args (pop_level kwargs))
      as (_ & r & Hrun & _ & _ & Hmsg & Hargs & _).
    eexists _, _, r. split; [exact Hrun|]. split; [reflexivity|].
    split; [|done]. by rewrite Hmsg, composed_empty_status.
Qed.

Lemma composition_empty_status_witness :
  ∃ new, sink (call 0 (CallSuccess "" [] no_kwargs) working_world).2
         = sink working_world ++ new
       ∧ (∃ r, new = [r])
       ∧ ∀ r, r ∈ new → lc_msg r = "Working".
Proof.
  destruct (composition_empty_status working_world 0 working_progress
              (CallSuccess "" [] no_kwargs) working_world_heap)
    as ((new & Hsink & Hone & Hnew) & _); [discriminate|reflexivity|].
  exists new. split; [exact Hsink|]. split; [by apply Hone|exact Hnew].
Defined.

(** ** Formatter *)

Lemma join_continuation (x : string) (rest : list string) :
  join nlindent (x :: rest) = x +:+ continuation rest.
Proof.
  revert x. induction rest as [|y rest IH]; intros x.
  - simpl. by rewrite append_nil_r.
  - change (join nlindent (x :: y :: rest))
      with (x +:+ nlindent +:+ join nlindent (y :: rest)).
    rewrite IH. reflexivity.
Qed.

Lemma append_cons_nonempty (cur : string) c : cur +:+ String c "" ≠ "".
Proof. by destruct cur. Qed.

(** A prefix without boundaries is read into the current line. *)
Lemma splitlines_from_prefix other (p : string) : ∀ cur s,
  line_free other p = true →
  splitlines_from other cur (p +:+ s) = splitlines_from other (cur +:+ p) s.
Proof.
  induction p as [|c p IH]; intros cur s Hp.
  - by rewrite append_nil_r.
  - simpl in Hp. apply andb_prop in Hp as [Hc Hp].
    unfold is_boundary in Hc. apply negb_true_iff in Hc.
    apply orb_false_elim in Hc as [Hc Hother].
    apply orb_false_elim in Hc as [Hcr Hnl].
    change (String c p +:+ s) with (String c (p +:+ s)). simpl.
    rewrite Hcr, Hnl, Hother. simpl. rewrite IH by done.
    by rewrite append_assoc.
Qed.

(** The line being read only shows in the first line of the result. *)
Lemma splitlines_from_cur other (s : string) :
  s ≠ "" →
  ∃ first rest, ∀ cur,
    splitlines_from other cur s = (cur +:+ first) :: rest.
Proof.
  induction s as [|c s IH]; [done|]. intros _. simpl.
  destruct (Ascii.eqb c "013") eqn:Hcr.
  { destruct s as [|d s''].
    - exists "", []. intros cur. by rewrite append_nil_r.
    - destruct (Ascii.eqb d "010").
      + eexists "", _. intros cur. by rewrite append_nil_r.
      + eexists "", _. intros cur. by rewrite append_nil_r. }
  destruct (Ascii.eqb c "010" || other c) eqn:Hnl.
  { eexists "", _. intros cur. by rewrite append_nil_r. }
  destruct s as [|d s''].
  - exists (String c ""), []. intros cur. simpl.
    pose proof (append_cons_nonempty cur c). by destruct (cur +:+ String c "").
  - destruct IH as (first & rest & IH); [done|].
    exists (String c first), rest. intros cur. rewrite IH.
    by rewrite append_assoc.
Qed.

(** Without decorations no prefix of the table holds a line boundary,
    for byte strings and for text strings. *)
Lemma plain_prefixes_line_free (t g : string) :
  _msgtype_prefixes plain_text !! t = Some g →
  line_free bytes_boundary ("[" +:+ g +:+ "] ") = true
  ∧ line_free text_boundary ("[" +:+ g +:+ "] ") = true.
Proof.
  intros H. apply elem_of_list_to_map_2 in H.
  repeat (apply elem_of_cons in H as [[= -> ->]|H]; [by split|]).
  by apply elem_of_nil in H.
Qed.

(** C7.  For a record whose tag is in the prefix table, with glyph [g],
    and whose default rendering is a non-empty message, in particular one
    with several lines: [Formatter.format] returns ['[g] '], the first
    line of the message, and then every further line behind a line feed
    and exactly four spaces.  The lines are those of [splitlines]; the
    prefix, with its decorated glyph, is taken to contain no line
    boundary. *)
Theorem format_multiline (other : Ascii.ascii → bool) (text : TextModule)
    (default_format : LogCall → string) (record : LogCall) (t g : string) :
  lc_msgtype record = Some (VStr t) →
  _msgtype_prefixes text !! t = Some g →
  line_free other ("[" +:+ g +:+ "] ") = true →
  default_format record ≠ "" →
  ∃ first rest,
    splitlines other (default_format record) = first :: rest
    ∧ Formatter_format other text default_format record
      = ("[" +:+ g +:+ "] ") +:+ first +:+ continuation rest.
Proof.
  intros Htag Hg Hfree Hmsg.
  destruct (splitlines_from_cur other (default_format record) Hmsg)
    as (first & rest & Hcur).
  exists first, rest. split; [exact (Hcur "")|].
  unfold Formatter_format. rewrite Htag. simpl. rewrite Hg.
  unfold splitlines. rewrite splitlines_from_prefix.
  - rewrite Hcur. change ("" +:+ "[" +:+ g +:+ "] ") with ("[" +:+ g +:+ "] ").
    rewrite join_continuation. by rewrite !append_assoc.
  - exact Hfree.
Qed.

(** The two-line message of the specification, tagged ['info'], on a
    stream that is not a terminal. *)
Lemma format_multiline_witness :
  Formatter_format bytes_boundary plain_text lc_msg (tagged_record two_lines "info")
  = "[*] line one" +:+ String "010"%char "    line two".
Proof.
  destruct (format_multiline bytes_boundary plain_text lc_msg
              (tagged_record two_lines "info") "info" "*")
    as (first & rest & Hlines & Hfmt);
    [reflexivity | reflexivity | reflexivity | discriminate |].
  vm_compute in Hlines. injection Hlines as <- <-.
  rewrite Hfmt. reflexivity.
Defined.

(** * Further properties *)

(** ** The life of one job *)

Lemma Logger__log_eq self level msg args kwargs msgtype progress w :
  Logger__log self level msg args kwargs msgtype progress w
  = (Ok tt, emit (mkLogCall (Logger__logger self) level msg args
                    (tagged_kwargs kwargs msgtype progress)) w).
Proof. reflexivity. Qed.

Lemma world_eta (w : World) :
  {| heap := heap w; _one_time_infos := _one_time_infos w;
     _one_time_warnings := _one_time_warnings w; sink := sink w |} = w.
Proof. by destruct w. Qed.

(** One call, in full. *)
Lemma call_effect w self p c :
  heap w !! self = Some p →
  call self c w
  = (Ok tt, {| heap := <[self := after_call c p]> (heap w);
               _one_time_infos := _one_time_infos w;
               _one_time_warnings := _one_time_warnings w;
               sink := sink w ++ (if emits c p then [record_for self p c] else []) |}).
Proof.
  intros Hp. destruct c as [now st args kw|st args kw|st args kw]; simpl.
  - unfold Progress_status, bind at 1. unfold getself at 1. rewrite Hp.
    unfold passes. destruct (Qlt_le_dec _ _) as [Hlt|Hle]; simpl.
    + unfold bind, setself, Progress__log, bind, getself. simpl.
      rewrite lookup_alter_eq, Hp. simpl.
      rewrite (alter_lookup_insert _ _ _ _ Hp).
      destruct (_stopped p); simpl.
      * unfold ret, set_heap. by rewrite app_nil_r.
      * done.
    + unfold ret. rewrite app_nil_r, insert_id by done. by rewrite world_eta.
  - unfold Progress_success, bind, Progress__log, bind, getself. rewrite Hp.
    destruct (_stopped p) eqn:Hs; simpl.
    + unfold ret, setself, set_heap. simpl.
      by rewrite app_nil_r, (alter_lookup_insert _ _ _ _ Hp).
    + unfold setself, set_heap, emit. simpl.
      by rewrite (alter_lookup_insert _ _ _ _ Hp).
  - unfold Progress_failure, bind, Progress__log, bind, getself. rewrite Hp.
    destruct (_stopped p) eqn:Hs; simpl.
    + unfold ret, setself, set_heap. simpl.
      by rewrite app_nil_r, (alter_lookup_insert _ _ _ _ Hp).
    + unfold setself, set_heap, emit. simpl.
      by rewrite (alter_lookup_insert _ _ _ _ Hp).
Qed.

Lemma after_call_attrs c p :
  _logger (after_call c p) = _logger p
  ∧ _msg (after_call c p) = _msg p
  ∧ _status (after_call c p) = _status p
  ∧ _level (after_call c p) = _level p.
Proof. destruct c; simpl; try destruct (passes _ _); done. Qed.

Lemma record_for_after_call self c' p c :
  record_for self (after_call c' p) c = record_for self p c.
Proof.
  destruct (after_call_attrs c' p) as (E1 & E2 & _ & E4).
  unfold record_for. by rewrite E1, E2, E4.
Qed.

Lemma accepted_record_for self c' p cs :
  map (record_for self (after_call c' p)) cs = map (record_for self p) cs.
Proof. apply map_ext. intros c. apply record_for_after_call. Qed.

(** A sequence of calls, in full. *)
Lemma calls_effect cs : ∀ w self p,
  heap w !! self = Some p →
  calls self cs w
  = (Ok tt, {| heap := <[self := after_calls p cs]> (heap w);
               _one_time_infos := _one_time_infos w;
               _one_time_warnings := _one_time_warnings w;
               sink := sink w ++ map (record_for self p) (accepted p cs) |}).
Proof.
  induction cs as [|c cs IH]; intros w self p Hp.
  - simpl. unfold ret. rewrite app_nil_r, insert_id by done. by rewrite world_eta.
  - simpl. unfold bind. rewrite (call_effect w self p c Hp).
    rewrite (IH _ self (after_call c p)) by (simpl; apply lookup_insert_eq).
    simpl. rewrite insert_insert_eq, <- app_assoc, accepted_record_for.
    by destruct (emits c p).
Qed.

Lemma after_calls_attrs cs : ∀ p,
  _logger (after_calls p cs) = _logger p
  ∧ _msg (after_calls p cs) = _msg p
  ∧ _status (after_calls p cs) = _status p
  ∧ _level (after_calls p cs) = _level p
  ∧ (_stopped p = true → _stopped (after_calls p cs) = true).
Proof.
  induction cs as [|c cs IH]; intros p; [done|]. simpl.
  destruct (IH (after_call c p)) as (E1 & E2 & E3 & E4 & E5).
  destruct (after_call_attrs c p) as (F1 & F2 & F3 & F4).
  repeat split; try congruence.
  intros Hs. apply E5. destruct c; simpl; try destruct (passes _ _); done.
Qed.

Lemma accepted_sublist cs : ∀ p, sublist (accepted p cs) cs.
Proof.
  induction cs as [|c cs IH]; intros p; simpl; [constructor|].
  destruct (emits c p); [by apply sublist_skip|by apply sublist_cons].
Qed.

Lemma accepted_app cs1 : ∀ p cs2,
  accepted p (cs1 ++ cs2) = accepted p cs1 ++ accepted (after_calls p cs1) cs2.
Proof.
  induction cs1 as [|c cs1 IH]; intros p cs2; [done|]. simpl.
  rewrite IH. by destruct (emits c p).
Qed.

Lemma after_calls_app cs1 : ∀ p cs2,
  after_calls p (cs1 ++ cs2) = after_calls (after_calls p cs1) cs2.
Proof. induction cs1 as [|c cs1 IH]; intros p cs2; [done|]. simpl. apply IH. Qed.

Lemma accepted_stopped cs : ∀ p, _stopped p = true → accepted p cs = [].
Proof.
  induction cs as [|c cs IH]; intros p Hs; [done|]. simpl.
  assert (emits c p = false) as ->.
  { destruct c; simpl; rewrite Hs; simpl; by rewrite ?andb_false_r. }
  apply IH. destruct c; simpl; try destruct (passes _ _); done.
Qed.

Lemma status_calls_running cs : ∀ p,
  forallb is_status cs = true → _stopped (after_calls p cs) = _stopped p.
Proof.
  induction cs as [|c cs IH]; intros p Hcs; [done|]. simpl in *.
  apply andb_prop in Hcs as [Hc Hcs]. rewrite IH by done.
  destruct c; try done. simpl. by destruct (passes _ _).
Qed.

Lemma record_for_tag self p c :
  kw_attr "pwnlib_msgtype" (call_kwargs c) = None →
  lc_msgtype (record_for self p c) = Some (VStr (call_tag c)).
Proof.
  intros Hkw. unfold lc_msgtype, lc_attr, record_for, tagged_kwargs. simpl.
  rewrite setdefault_lookup_ne by done. rewrite setdefault_lookup.
  unfold kw_attr in Hkw. destruct (kw_extra (call_kwargs c)); simpl in *.
  - by rewrite Hkw.
  - by rewrite lookup_empty.
Qed.

Lemma record_for_progress self p c :
  kw_attr "pwnlib_progress" (call_kwargs c) = None →
  lc_progress (record_for self p c) = Some (VRef self).
Proof.
  intros Hkw. unfold lc_progress, lc_attr, record_for, tagged_kwargs. simpl.
  rewrite setdefault_lookup. rewrite setdefault_lookup_ne by done.
  unfold kw_attr in Hkw. destruct (kw_extra (call_kwargs c)); simpl in *.
  - by rewrite Hkw.
  - by rewrite lookup_empty.
Qed.



(** X2.  On a running [Progress], the first [success()] or [failure()]
    call of a sequence emits the last record of the job: before it only
    records tagged ['status'] are emitted, the record it emits carries its
    own tag and status, and whatever is called after it emits nothing.
    The job ends up stopped. *)
Theorem terminal_record_is_last (w : World) (self : loc) (p : Progress)
    (pre : list ProgressCall) (c : ProgressCall) (post : list ProgressCall) :
  heap w !! self = Some p →
  _stopped p = false →
  forallb is_status pre = true →
  is_status c = false →
  Forall (λ c, unreserved (call_kwargs c)) (pre ++ [c]) →
  ∃ w' updates r,
    calls self (pre ++ c :: post) w = (Ok tt, w')
    ∧ sink w' = sink w ++ updates ++ [r]
    ∧ Forall (λ u, lc_msgtype u = Some (VStr "status")
                   ∧ lc_progress u = Some (VRef self)) updates
    ∧ lc_msgtype r = Some (VStr (call_tag c))
    ∧ lc_progress r = Some (VRef self)
    ∧ lc_msg r = composed (_msg p) (call_status c)
    ∧ _stopped <$> heap w' !! self = Some true.
Proof.
  intros Hp Hs Hpre Hc Hkw.
  apply Forall_app in Hkw as [Hkpre Hkc].
  apply Forall_cons in Hkc as [[Hmt Hpr] _].
  eexists _, (map (record_for self p) (accepted p pre)), (record_for self p c).
  split; [by apply calls_effect|]. simpl.
  assert (Hrun : _stopped (after_calls p pre) = false)
    by (by rewrite status_calls_running).
  split.
  { f_equal. rewrite accepted_app. simpl.
    assert (emits c (after_calls p pre) = true) as ->
      by (destruct c; [done|simpl; by rewrite Hrun..]).
    rewrite (accepted_stopped post (after_call c (after_calls p pre)))
      by (destruct c; [discriminate|reflexivity..]).
    by rewrite map_app. }
  split.
  { apply Forall_forall. intros r [u [-> Hu]]%list_elem_of_fmap.
    assert (Hin : u ∈ pre) by (eapply elem_of_sublist; [done|apply accepted_sublist]).
    rewrite Forall_forall in Hkpre. destruct (Hkpre u Hin) as [Hu1 Hu2].
    rewrite forallb_forall in Hpre.
    assert (Hst : is_status u = true) by (apply Hpre; by apply list_elem_of_In).
    rewrite record_for_tag, record_for_progress by done.
    by destruct u. }
  split; [by apply record_for_tag|]. split; [by apply record_for_progress|].
  split; [done|].
  rewrite lookup_insert_eq. simpl. f_equal.
  destruct (after_calls_attrs post (after_call c (after_calls p pre)))
    as (_ & _ & _ & _ & Hst).
  rewrite after_calls_app. simpl. apply Hst. by destruct c.
Qed.

Lemma terminal_record_is_last_witness :
  ∃ w' updates r,
    calls 0 ([CallStatus 1700000000 "At 0" [] no_kwargs]
             ++ CallFailure "Failed" [] no_kwargs
             :: [CallSuccess "Done" [] no_kwargs;
                 CallStatus 1700000001 "At 1" [] no_kwargs]) working_world
    = (Ok tt, w')
    ∧ sink w' = sink working_world ++ updates ++ [r]
    ∧ lc_msgtype r = Some (VStr "failure")
    ∧ lc_msg r = "Working: Failed".
Proof.
  destruct (terminal_record_is_last working_world 0 working_progress
              [CallStatus 1700000000 "At 0" [] no_kwargs]
              (CallFailure "Failed" [] no_kwargs)
              [CallSuccess "Done" [] no_kwargs;
               CallStatus 1700000001 "At 1" [] no_kwargs]
              working_world_heap eq_refl eq_refl eq_refl)
    as (w' & ups & r & Hrun & Hsink & _ & Htag & _ & Hmsg & _).
  { repeat constructor. }
  exists w', ups, r. repeat split; assumption.
Defined.

Lemma passes_spec now p :
  passes now p = true ↔ (last_status p + (1 # 10) < now)%Q.
Proof.
  unfold passes. destruct (Qlt_le_dec _ _) as [Hlt|Hle]; split; intros H;
    try done; try lra.
Qed.

Lemma call_times_cons_status now st args kw cs :
  call_times (CallStatus now st args kw :: cs) = now :: call_times cs.
Proof. reflexivity. Qed.

Lemma accepted_spaced cs : ∀ p,
  forallb is_status cs = true →
  _stopped p = false →
  spaced (last_status p) (call_times (accepted p cs))
  ∧ last_status (after_calls p cs)
    = default (last_status p) (last (call_times (accepted p cs))).
Proof.
  induction cs as [|c cs IH]; intros p Hcs Hs; [done|].
  simpl in Hcs. apply andb_prop in Hcs as [Hc Hcs].
  destruct c as [now st args kw| |]; try discriminate.
  change (accepted p (CallStatus now st args kw :: cs))
    with (if passes now p && negb (_stopped p)
          then CallStatus now st args kw
               :: accepted (if passes now p then set_last_status now p else p) cs
          else accepted (if passes now p then set_last_status now p else p) cs).
  change (after_calls p (CallStatus now st args kw :: cs))
    with (after_calls (if passes now p then set_last_status now p else p) cs).
  rewrite Hs, andb_true_r. destruct (passes now p) eqn:Hpass; [|by apply IH].
  destruct (IH (set_last_status now p) Hcs Hs) as [Hsp Hlast].
  change (last_status (set_last_status now p)) with now in Hsp, Hlast.
  rewrite call_times_cons_status. split.
  - split; [by apply passes_spec|done].
  - rewrite Hlast.
    destruct (call_times (accepted (set_last_status now p) cs)) as [|t l];
      [reflexivity|].
    rewrite last_cons_cons.
    destruct (last (t :: l)) eqn:El; [reflexivity|]. by apply last_None in El.
Qed.

Lemma spaced_bound (T : time) (ts : list time) : ∀ last,
  ts ≠ [] →
  spaced last ts →
  Forall (λ t, (t <= T)%Q) ts →
  (last + inject_Z (Z.of_nat (length ts)) * (1 # 10) < T)%Q.
Proof.
  induction ts as [|t ts IH]; intros last Hne Hsp Hall; [done|].
  destruct Hsp as [Hlt Hsp]. apply Forall_cons in Hall as [Ht Hall].
  destruct ts as [|t' ts'].
  - change (inject_Z (Z.of_nat (length [t]))) with 1%Q. lra.
  - specialize (IH t ltac:(done) Hsp Hall).
    assert (E : (inject_Z (Z.of_nat (length (t :: t' :: ts')))
                 == inject_Z (Z.of_nat (length (t' :: ts'))) + 1)%Q).
    { change (length (t :: t' :: ts')) with (S (length (t' :: ts'))).
      rewrite Nat2Z.inj_succ. unfold Z.succ. by rewrite inject_Z_plus. }
    rewrite E. revert IH. generalize (inject_Z (Z.of_nat (length (t' :: ts')))).
    intros q IH. lra.
Qed.

Lemma call_times_sublist (l1 l2 : list ProgressCall) :
  sublist l1 l2 → sublist (call_times l1) (call_times l2).
Proof.
  induction 1 as [|c l1 l2 _ IH|c l1 l2 _ IH]; [constructor|..];
    unfold call_times in *; simpl; destruct c; simpl;
    try done; by constructor.
Qed.

Lemma call_times_length (l : list ProgressCall) :
  forallb is_status l = true → length (call_times l) = length l.
Proof.
  induction l as [|c l IH]; [done|]. simpl. intros [Hc Hl]%andb_prop.
  destruct c; try discriminate. unfold call_times in *. simpl. by rewrite IH.
Qed.

Lemma sublist_status (l1 l2 : list ProgressCall) :
  sublist l1 l2 → forallb is_status l2 = true → forallb is_status l1 = true.
Proof.
  induction 1 as [|c l1 l2 _ IH|c l1 l2 _ IH]; simpl; [done|..].
  - intros [-> Hl]%andb_prop. by rewrite IH.
  - intros [_ Hl]%andb_prop. by apply IH.
Qed.

(** X3.  Of a sequence of [status()] calls on a running [Progress], the
    calls that reach the logger form a subsequence whose clock readings
    are each more than 100 ms after the one before, the first of them
    more than 100 ms after [last_status]; the [Progress] ends with the
    last of these readings as [last_status].  So when no reading exceeds
    [T], the [n] records emitted satisfy [last_status + n / 10 < T]: the
    rate of updates is bounded, however often [status()] is called. *)
Theorem status_updates_spaced (w : World) (self : loc) (p : Progress)
    (cs : list ProgressCall) :
  heap w !! self = Some p →
  _stopped p = false →
  forallb is_status cs = true →
  ∃ kept p',
    sublist kept cs
    ∧ calls self cs w
      = (Ok tt, {| heap := <[self := p']> (heap w);
                   _one_time_infos := _one_time_infos w;
                   _one_time_warnings := _one_time_warnings w;
                   sink := sink w ++ map (record_for self p) kept |})
    ∧ spaced (last_status p) (call_times kept)
    ∧ last_status p' = default (last_status p) (last (call_times kept))
    ∧ ∀ T : time,
        Forall (λ t, (t <= T)%Q) (call_times cs) →
        kept ≠ [] →
        (last_status p + inject_Z (Z.of_nat (length kept)) * (1 # 10) < T)%Q.
Proof.
  intros Hp Hs Hcs. exists (accepted p cs), (after_calls p cs).
  pose proof (accepted_sublist cs p) as Hsub.
  destruct (accepted_spaced cs p Hcs Hs) as [Hsp Hlast].
  split; [done|]. split; [by apply calls_effect|]. split; [done|].
  split; [done|]. intros T HT Hne.
  rewrite <- (call_times_length (accepted p cs))
    by (eapply sublist_status; done).
  apply spaced_bound; [|done|].
  - intros Hnil. apply Hne. apply length_zero_iff_nil.
    rewrite <- (call_times_length (accepted p cs))
      by (eapply sublist_status; done).
    by rewrite Hnil.
  - rewrite Forall_forall in HT |- *. intros t Ht. apply HT.
    eapply elem_of_sublist; [done|]. by apply call_times_sublist.
Qed.

Lemma status_updates_spaced_witness :
  ∃ kept p',
    calls 0 [CallStatus 1700000000 "At 0" [] no_kwargs;
             CallStatus (1700000000 + (5 # 100)) "At 1" [] no_kwargs;
             CallStatus 1700000001 "At 2" [] no_kwargs] working_world
    = (Ok tt, {| heap := <[0 := p']> (heap working_world);
                 _one_time_infos := ∅; _one_time_warnings := ∅;
                 sink := sink working_world
                         ++ map (record_for 0 working_progress) kept |})
    ∧ spaced 0 (call_times kept)
    ∧ (inject_Z (Z.of_nat (length kept)) * (1 # 10) < 1700000001)%Q.
Proof.
  destruct (status_updates_spaced working_world 0 working_progress
              [CallStatus 1700000000 "At 0" [] no_kwargs;
               CallStatus (1700000000 + (5 # 100)) "At 1" [] no_kwargs;
               CallStatus 1700000001 "At 2" [] no_kwargs]
              working_world_heap eq_refl eq_refl)
    as (kept & p' & Hsub & Hrun & Hsp & _ & Hbound).
  exists kept, p'. split; [exact Hrun|]. split; [exact Hsp|].
  assert (Hne : kept ≠ []).
  { intros ->. vm_compute in Hrun. discriminate. }
  specialize (Hbound 1700000001%Q).
  simpl in Hbound. assert (H := Hbound ltac:(repeat constructor; vm_compute; discriminate) Hne).
  lra.
Defined.

(** ** The emitting methods of [Logger] *)

Lemma Logger_call_effect (c : LoggerCall) (w : World) :
  Logger_call (gc_method c) (gc_logger c) (gc_message c) (gc_args c) (gc_kwargs c) w
  = (Ok tt, emit (record_of_call c) w).
Proof. destruct c as [[] l msg args kw]; reflexivity. Qed.

Lemma tagged_kwargs_msgtype kwargs msgtype progress :
  kw_extra (tagged_kwargs kwargs msgtype progress) ≫= (λ e, e !! "pwnlib_msgtype")
  = Some (default msgtype (kw_attr "pwnlib_msgtype" kwargs)).
Proof.
  unfold tagged_kwargs, kw_attr. simpl.
  rewrite setdefault_lookup_ne by done. rewrite setdefault_lookup.
  destruct (kw_extra kwargs); simpl; [done|]. by rewrite lookup_empty.
Qed.

Lemma tagged_kwargs_progress kwargs msgtype progress :
  kw_extra (tagged_kwargs kwargs msgtype progress) ≫= (λ e, e !! "pwnlib_progress")
  = Some (default progress (kw_attr "pwnlib_progress" kwargs)).
Proof.
  unfold tagged_kwargs, kw_attr. simpl.
  rewrite setdefault_lookup. rewrite setdefault_lookup_ne by done.
  destruct (kw_extra kwargs); simpl; [done|]. by rewrite lookup_empty.
Qed.


Lemma mkLogCall_msgtype name level msg args kwargs msgtype progress :
  lc_msgtype (mkLogCall name level msg args (tagged_kwargs kwargs msgtype progress))
  = Some (default msgtype (kw_attr "pwnlib_msgtype" kwargs)).
Proof. apply tagged_kwargs_msgtype. Qed.

Lemma mkLogCall_progress name level msg args kwargs msgtype progress :
  lc_progress (mkLogCall name level msg args (tagged_kwargs kwargs msgtype progress))
  = Some (default progress (kw_attr "pwnlib_progress" kwargs)).
Proof. apply tagged_kwargs_progress. Qed.


Lemma record_of_call_tag (c : LoggerCall) :
  unreserved (gc_kwargs c) →
  lc_msgtype (record_of_call c) = Some (method_tag (gc_method c))
  ∧ lc_progress (record_of_call c) = Some VNone.
Proof.
  intros [Hmt Hpr]. unfold record_of_call.
  rewrite mkLogCall_msgtype, mkLogCall_progress.
  assert (E : ∀ k, kw_attr k (method_kwargs (gc_method c) (gc_kwargs c))
                   = kw_attr k (gc_kwargs c))
    by (intros k; by destruct (gc_method c)).
  by rewrite !E, Hmt, Hpr.
Qed.



(** ** [Logger.progress]: the level of a job *)

Lemma Progress___init___eq w logger msg status level args kwargs :
  let self : loc := fresh (dom (heap w)) in
  let p := {| _logger := logger; _msg := msg; _status := status;
              _level := level; _stopped := false; last_status := 0 |} in
  Progress___init__ logger msg status level args kwargs w
  = (Ok self,
     emit (mkLogCall (Logger__logger logger) level (composed msg status) args
             (tagged_kwargs kwargs (VStr "status") (VRef self)))
       (set_heap (<[self := p]> (heap w)) w)).
Proof.
  intros self p. unfold Progress___init__. fold self. fold p.
  unfold bind, Progress__log, bind, getself. simpl.
  rewrite lookup_insert_eq. simpl. unfold setself, ret, emit, set_heap. simpl.
  rewrite (alter_lookup_insert _ _ self p) by apply lookup_insert_eq.
  by rewrite insert_insert_eq.
Qed.

(** X5.  [Logger.progress] takes the ['level'] keyword out of the
    keywords it passes on ([INFO] when absent) and makes it the level of
    the new [Progress]: the initial record and every record that later
    [status()], [success()] and [failure()] calls emit are at that level,
    on the logger that created the job. *)
Theorem progress_level (w : World) (logger : Logger) (message status : string)
    (args : list PyVal) (kwargs : Kwargs) (cs : list ProgressCall) :
  ∃ self w1 r0 w2 new,
    Logger_progress logger message status args kwargs w = (Ok self, w1)
    ∧ heap w !! self = None
    ∧ sink w1 = sink w ++ [r0]
    ∧ kw_level (lc_kwargs r0) = None
    ∧ calls self cs w1 = (Ok tt, w2)
    ∧ sink w2 = sink w1 ++ new
    ∧ Forall (λ r, lc_level r = default INFO (kw_level kwargs)
                   ∧ lc_logger r = Logger__logger logger) (r0 :: new).
Proof.
  unfold Logger_progress. rewrite Progress___init___eq.
  set (self := fresh (dom (heap w))).
  set (p := {| _logger := logger; _msg := message; _status := status;
               _level := default INFO (kw_level kwargs); _stopped := false;
               last_status := 0 |}).
  eexists self, _, _, _, (map (record_for self p) (accepted p cs)).
  split; [reflexivity|]. split; [apply not_elem_of_dom, is_fresh|].
  split; [reflexivity|]. split; [reflexivity|].
  split; [apply calls_effect; simpl; apply lookup_insert_eq|].
  split; [reflexivity|].
  constructor; [done|].
  apply Forall_forall. by intros r [c [-> _]]%list_elem_of_fmap.
Qed.

(** ** [Logger.exception] *)

(** X6.  [exception(msg, *args)] hands one record to the logger, at level
    [ERROR], with the message and the arguments untouched and with the
    keyword [exc_info] set to 1 whatever the caller passed for it, and
    then re-raises the exception that is being handled, unchanged.  The
    message is never formatted here, so a format string that does not
    fit its arguments changes nothing.  It never returns normally, with
    or without an exception being handled. *)
Theorem Logger_exception_reraises (current : option exn) (self : Logger)
    (message : string) (args : list PyVal) (kwargs : Kwargs) (w : World) :
  ∃ c e,
    (∀ A, @Logger_exception A current self message args kwargs w
          = (Raise e, emit c w))
    ∧ (∀ e', current = Some e' → e = e')
    ∧ lc_logger c = Logger__logger self
    ∧ lc_level c = ERROR
    ∧ lc_msg c = message
    ∧ lc_args c = args
    ∧ kw_other (lc_kwargs c) !! "exc_info" = Some (VInt 1)
    ∧ (∀ k, k ≠ "exc_info" → kw_other (lc_kwargs c) !! k = kw_other kwargs !! k)
    ∧ (kw_attr "pwnlib_msgtype" kwargs = None →
         lc_msgtype c = Some (VStr "exception")).
Proof.
  eexists _, (match current with
              | Some e => e
              | None => OtherException "no active exception to re-raise"
              end).
  split.
  { intros A. unfold Logger_exception, bind. rewrite Logger__log_eq.
    destruct current; reflexivity. }
  split; [by intros e' ->|]. repeat split.
  - simpl. apply lookup_insert_eq.
  - intros k Hk. simpl. by apply lookup_insert_ne.
  - intros Hkw. rewrite mkLogCall_msgtype. unfold kw_attr in *. simpl.
    by rewrite Hkw.
Qed.

Lemma Logger_exception_reraises_witness :
  ∃ c, @Logger_exception unit (Some ZeroDivisionError) (mkLogger "pwnlib")
         "progress at 100%" [] no_kwargs initial_world
       = (Raise ZeroDivisionError, emit c initial_world)
     ∧ lc_msgtype c = Some (VStr "exception").
Proof.
  destruct (Logger_exception_reraises (Some ZeroDivisionError) (mkLogger "pwnlib")
              "progress at 100%" [] no_kwargs initial_world)
    as (c & e & Hrun & He & _ & _ & _ & _ & _ & _ & Htag).
  exists c. rewrite (Hrun unit), (He _ eq_refl). split; [done|].
  by apply Htag.
Defined.

(** ** More on the one-time messages *)

Section Once_more.

Variable percent : string → list PyVal → result string.

Lemma once_call_raises c w :
  renders percent c = false → (once_call percent c w).2 = w.
Proof.
  unfold renders. destruct (percent _ _) as [m|e] eqn:Hm; [done|]. intros _.
  unfold once_call. destruct (oc_kind c).
  - by rewrite (Logger_info_once_raises percent _ _ _ _ _ _ Hm).
  - by rewrite (Logger_warning_once_raises percent _ _ _ _ _ _ Hm).
Qed.

(** What one call leaves in the set of its kind, and in the other set. *)
Lemma once_call_sets c w m :
  percent (oc_message c) (oc_args c) = Ok m →
  once_set (oc_kind c) (once_call percent c w).2 = {[ m ]} ∪ once_set (oc_kind c) w
  ∧ ∀ k, k ≠ oc_kind c → once_set k (once_call percent c w).2 = once_set k w.
Proof.
  intros Hm. unfold once_call.
  destruct (oc_kind c) eqn:Hk.
  - unfold Logger_info_once, bind, lift. rewrite Hm.
    destruct (decide (m ∈ _one_time_infos w)) as [Hin|Hnin]; simpl.
    + split; [set_solver|done].
    + split; [done|]. by intros [] ?.
  - unfold Logger_warning_once, bind, lift. rewrite Hm.
    destruct (decide (m ∈ _one_time_warnings w)) as [Hin|Hnin]; simpl.
    + split; [set_solver|done].
    + split; [done|]. by intros [] ?.
Qed.

Lemma once_call_seen c w m :
  percent (oc_message c) (oc_args c) = Ok m →
  m ∈ once_set (oc_kind c) w →
  once_call percent c w = (Ok tt, w).
Proof.
  intros Hm Hin. unfold once_call. destruct (oc_kind c); simpl in Hin.
  - by eapply Logger_info_once_skips.
  - by eapply Logger_warning_once_skips.
Qed.

End Once_more.

(** X7.  A one-time call whose formatting raises is as if it had not been
    made: it hands nothing to the logger and adds nothing to either set,
    so a process that goes on after such calls ends in the same store as
    one that never made them. *)
Theorem once_calls_ignore_failures
    (percent : string → list PyVal → result string)
    (cs : list OnceCall) (w : World) :
  once_calls percent cs w
  = once_calls percent (List.filter (renders percent) cs) w.
Proof.
  revert w. induction cs as [|c cs IH]; intros w; [done|]. simpl.
  destruct (renders percent c) eqn:Hr; simpl.
  - apply IH.
  - rewrite once_call_raises by done. apply IH.
Qed.

(** X8.  The one-time methods go by the rendered string alone: once a call
    of a kind has rendered to [m], whether it was emitted or skipped, a
    later call of that kind that renders to [m] returns with the store
    unchanged, on whatever logger and with whatever message, arguments
    and keywords it is made. *)
Theorem once_same_rendering_suppressed
    (percent : string → list PyVal → result string)
    (c1 c2 : OnceCall) (between : list OnceCall) (w : World) (m : string) :
  oc_kind c1 = oc_kind c2 →
  percent (oc_message c1) (oc_args c1) = Ok m →
  percent (oc_message c2) (oc_args c2) = Ok m →
  let w' := once_calls percent between (once_call percent c1 w).2 in
  once_call percent c2 w' = (Ok tt, w').
Proof.
  intros Hk H1 H2 w'. apply (once_call_seen percent c2 w' m H2).
  subst w'. rewrite <- Hk.
  assert (Hin : m ∈ once_set (oc_kind c1) (once_call percent c1 w).2).
  { destruct (once_call_sets percent c1 w m H1) as [-> _]. set_solver. }
  revert Hin. generalize (once_call percent c1 w).2. clear w H1.
  induction between as [|c cs IH]; intros w Hin; [done|]. simpl.
  apply IH. destruct (percent (oc_message c) (oc_args c)) as [m'|e] eqn:Hc.
  - destruct (once_call_sets percent c w m' Hc) as [Hsame Hother].
    destruct (decide (oc_kind c1 = oc_kind c)) as [E|Hne].
    + rewrite E, Hsame. rewrite E in Hin. set_solver.
    + by rewrite Hother.
  - rewrite once_call_raises; [done|]. unfold renders. by rewrite Hc.
Qed.

Lemma once_same_rendering_suppressed_witness :
  let w' := (once_call py_percent (connected "pwnlib" "bob") initial_world).2 in
  once_call py_percent
    {| oc_kind := InfoOnce; oc_logger := mkLogger "pwnlib.tubes";
       oc_message := "User bob connected"; oc_args := [];
       oc_kwargs := no_kwargs |} w'
  = (Ok tt, w').
Proof.
  exact (once_same_rendering_suppressed py_percent (connected "pwnlib" "bob")
           {| oc_kind := InfoOnce; oc_logger := mkLogger "pwnlib.tubes";
              oc_message := "User bob connected"; oc_args := [];
              oc_kwargs := no_kwargs |} [] initial_world
           "User bob connected" eq_refl eq_refl eq_refl).
Defined.

(** X9.  The two one-time sets are independent: calls of one kind never
    change the set of the other kind, so a string that [info_once] has
    emitted is still emitted by [warning_once], and the other way
    round. *)
Theorem once_kinds_independent
    (percent : string → list PyVal → result string)
    (k : OnceKind) (cs : list OnceCall) (c : OnceCall) (w : World) (m : string) :
  Forall (λ c', oc_kind c' ≠ k) cs →
  oc_kind c = k →
  percent (oc_message c) (oc_args c) = Ok m →
  m ∉ once_set k w →
  once_set k (once_calls percent cs w) = once_set k w
  ∧ ∃ r w', once_call percent c (once_calls percent cs w) = (Ok tt, w')
          ∧ sink w' = sink (once_calls percent cs w) ++ [r]
          ∧ lc_msg r = oc_message c
          ∧ lc_args r = oc_args c.
Proof.
  intros Hcs Hk Hm Hnin.
  assert (Hset : once_set k (once_calls percent cs w) = once_set k w).
  { clear Hnin. revert w. induction Hcs as [|c' cs Hc' _ IH]; intros w; [done|].
    simpl. rewrite IH.
    destruct (percent (oc_message c') (oc_args c')) as [m'|e] eqn:Hr.
    - destruct (once_call_sets percent c' w m' Hr) as [_ Hother]. by apply Hother.
    - rewrite once_call_raises; [done|]. unfold renders. by rewrite Hr. }
  split; [done|].
  set (w1 := once_calls percent cs w) in *.
  assert (Hnin1 : m ∉ once_set k w1) by (by rewrite Hset).
  unfold once_call. rewrite Hk. destruct k; simpl in Hnin1.
  - destruct (Logger_info_once_emits percent (oc_logger c) _ _ (oc_kwargs c) w1 m Hm Hnin1)
      as (r & w' & Hrun & Hsink & _ & _ & _ & _ & _ & Hmsg & Hargs & _).
    by exists r, w'.
  - destruct (Logger_warning_once_emits percent (oc_logger c) _ _ (oc_kwargs c) w1 m Hm Hnin1)
      as (r & w' & Hrun & Hsink & _ & _ & _ & _ & _ & Hmsg & Hargs & _).
    by exists r, w'.
Qed.

Lemma once_kinds_independent_witness :
  ∃ r w',
    once_call py_percent
      {| oc_kind := WarningOnce; oc_logger := mkLogger "pwnlib";
         oc_message := "User %s connected"; oc_args := [VStr "bob"];
         oc_kwargs := no_kwargs |}
      (once_calls py_percent [connected "pwnlib" "bob"] initial_world)
    = (Ok tt, w')
    ∧ sink w' = sink (once_calls py_percent [connected "pwnlib" "bob"] initial_world)
                ++ [r].
Proof.
  destruct (once_kinds_independent py_percent WarningOnce
              [connected "pwnlib" "bob"]
              {| oc_kind := WarningOnce; oc_logger := mkLogger "pwnlib";
                 oc_message := "User %s connected"; oc_args := [VStr "bob"];
                 oc_kwargs := no_kwargs |}
              initial_world "User bob connected")
    as (_ & r & w' & Hrun & Hsink & _); [by repeat constructor|done|done| |].
  { simpl. set_solver. }
  by exists r, w'.
Defined.

(** ** The registry of loggers *)








(** ** The levels of the root logger and of the console handler *)

(** X11.  The console handler reports [context.log_level] whatever
    levels have been assigned to it.  While the root logger has no
    explicit level, the level it reports is never above the one the
    handler reports, and the two agree exactly when [context.log_level]
    is at most [INFO]; the logger reports [INFO] for every global level
    from [INFO] upwards.  Assigning [NOTSET] after an explicit level
    brings the logger back to following [context.log_level]. *)
Theorem root_and_handler_levels (log_level : Z) (console : Handler)
    (assigned : list Z) (self : RootLogger) (level : Z) :
  Handler_level log_level (foldl Handler_level_setter console assigned) = log_level
  ∧ (getter log_level rootlogger <= Handler_level log_level console)%Z
  ∧ (getter log_level rootlogger = Handler_level log_level console
     ↔ (log_level <= INFO)%Z)
  ∧ ((INFO <= log_level)%Z → getter log_level rootlogger = INFO)
  ∧ getter log_level (setter (setter self level) NOTSET)
    = getter log_level rootlogger.
Proof.
  unfold Handler_level, getter, rootlogger, setter, NOTSET, INFO. simpl.
  split; [done|]. split; [lia|]. split; [lia|]. split; [lia|done].
Qed.

Lemma root_and_handler_levels_witness :
  getter ERROR rootlogger = INFO
  ∧ Handler_level ERROR (Handler_level_setter ConsoleHandler DEBUG) = ERROR.
Proof.
  destruct (root_and_handler_levels ERROR ConsoleHandler [DEBUG] rootlogger DEBUG)
    as (H1 & _ & _ & H2 & _).
  split; [apply H2; unfold INFO, ERROR; lia|exact H1].
Defined.

(** ** The reserved keys of ['extra'] *)

(** X12.  [Logger._log] never overwrites a reserved key: it leaves every
    key the caller put into ['extra'] as it is and only adds
    ['pwnlib_msgtype'] and ['pwnlib_progress'] when they are missing.
    Since it writes into the caller's dictionary, a dictionary that went
    through one call and is passed to another keeps the tag and the
    [Progress] of the first call, whatever method makes the second. *)
Theorem first_tag_wins (self self' : Logger) (level level' : Z)
    (msg msg' : string) (args args' : list PyVal) (kwargs : Kwargs)
    (msgtype progress msgtype' progress' : PyVal) (w : World) :
  let c := mkLogCall (Logger__logger self) level msg args
             (tagged_kwargs kwargs msgtype progress) in
  let c' := mkLogCall (Logger__logger self') level' msg' args'
              (tagged_kwargs (lc_kwargs c) msgtype' progress') in
  Logger__log self level msg args kwargs msgtype progress w = (Ok tt, emit c w)
  ∧ Logger__log self' level' msg' args' (lc_kwargs c) msgtype' progress' (emit c w)
    = (Ok tt, emit c' (emit c w))
  ∧ (∀ k v, kw_attr k kwargs = Some v → lc_attr k c = Some v)
  ∧ lc_msgtype c' = lc_msgtype c
  ∧ lc_progress c' = lc_progress c
  ∧ lc_kwargs c' = lc_kwargs c.
Proof.
  intros c c'. split; [reflexivity|]. split; [reflexivity|].
  assert (Hkeep : ∀ k v, kw_attr k kwargs = Some v → lc_attr k c = Some v).
  { intros k v Hk. unfold lc_attr, kw_attr in *. simpl.
    destruct (kw_extra kwargs) as [e|]; simpl in *; [|done].
    unfold setdefault.
    destruct (e !! "pwnlib_msgtype") eqn:E1; simpl.
    - destruct (e !! "pwnlib_progress") eqn:E2; simpl; [done|].
      destruct (decide ("pwnlib_progress" = k)) as [<-|Hne]; [congruence|].
      by rewrite lookup_insert_ne.
    - destruct (decide ("pwnlib_msgtype" = k)) as [<-|Hne]; [congruence|].
      rewrite lookup_insert_ne by done.
      destruct (e !! "pwnlib_progress") eqn:E2; simpl.
      + by rewrite lookup_insert_ne.
      + destruct (decide ("pwnlib_progress" = k)) as [<-|Hne']; [congruence|].
        by rewrite !lookup_insert_ne.  }
  split; [exact Hkeep|].
  assert (Hmt : ∃ v, kw_attr "pwnlib_msgtype" (lc_kwargs c) = Some v).
  { unfold kw_attr. subst c. simpl.
    rewrite setdefault_lookup_ne by done. rewrite setdefault_lookup. eauto. }
  assert (Hpr : ∃ v, kw_attr "pwnlib_progress" (lc_kwargs c) = Some v).
  { unfold kw_attr. subst c. simpl. rewrite setdefault_lookup. eauto. }
  destruct Hmt as [v1 Hmt]. destruct Hpr as [v2 Hpr].
  assert (E : tagged_kwargs (lc_kwargs c) msgtype' progress' = lc_kwargs c).
  { unfold kw_attr in Hmt, Hpr. unfold tagged_kwargs.
    destruct (kw_extra (lc_kwargs c)) as [e|] eqn:He; simpl in *; [|done].
    unfold setdefault. rewrite Hmt, Hpr.
    subst c. simpl in *. by rewrite <- He. }
  assert (E' : lc_kwargs c' = lc_kwargs c) by exact E.
  unfold lc_msgtype, lc_progress, lc_attr. by rewrite E'.
Qed.

(** ** More on [Formatter.format] *)

Lemma Formatter_format_tagged other text default_format record msgtype :
  default VNone (lc_msgtype record) = msgtype →
  msgtype ≠ VNone →
  Formatter_format other text default_format record
  = join nlindent (splitlines other (format_prefix text msgtype
                                      +:+ default_format record)).
Proof.
  intros Hmt Hne. unfold Formatter_format. rewrite Hmt.
  by destruct msgtype.
Qed.

(** A prefix without line boundary, then the lines of the message. *)
Lemma prefixed_lines other (prefix msg : string) :
  line_free other prefix = true →
  (msg = "" → join nlindent (splitlines other (prefix +:+ msg)) = prefix)
  ∧ (∀ first rest,
       splitlines other msg = first :: rest →
       join nlindent (splitlines other (prefix +:+ msg))
       = prefix +:+ first +:+ continuation rest).
Proof.
  intros Hfree. unfold splitlines. rewrite splitlines_from_prefix by done.
  change ("" +:+ prefix) with prefix. split.
  - intros ->. simpl. by destruct prefix.
  - intros first rest Hlines.
    assert (Hmsg : msg ≠ "") by (by intros ->).
    destruct (splitlines_from_cur other msg Hmsg) as (first' & rest' & Hcur).
    rewrite (Hcur "") in Hlines. injection Hlines as <- <-.
    rewrite Hcur. change ("" +:+ first') with first'.
    rewrite join_continuation. apply append_assoc.
Qed.

Lemma method_prefix_format text (m : LoggerMethod) :
  method_tag m ≠ VNone →
  format_prefix text (method_tag m) = method_prefix text m.
Proof. destruct m; try done. Qed.

Lemma call_prefix_format text (c : ProgressCall) :
  format_prefix text (VStr (call_tag c)) = call_prefix text c.
Proof. by destruct c. Qed.

(** X13.  What the console shows for the emitting methods of [Logger],
    when the caller leaves the reserved keys alone.  A record of [log] is
    rendered as the default formatter renders it, with nothing added.  A
    record of any other method is rendered as the prefix of the method
    (['[*] '] for [info], ['[!] '] for [warning], ['[+] '], ['[-] '],
    ['[DEBUG] '], ['[CRITICAL] '] with the decorations of the glyph, four
    spaces for [indented]), the first line of the default rendering, and
    every further line behind a line feed and four spaces; for an empty
    rendering it is the prefix alone.  The fallback prefix ['[?] '] never
    shows.  The prefix is taken to hold no line boundary. *)
Theorem Logger_call_rendering (other : Ascii.ascii → bool) (text : TextModule)
    (default_format : LogCall → string) (c : LoggerCall) (w : World) :
  unreserved (gc_kwargs c) →
  line_free other (method_prefix text (gc_method c)) = true →
  ∃ r,
    Logger_call (gc_method c) (gc_logger c) (gc_message c) (gc_args c)
      (gc_kwargs c) w = (Ok tt, emit r w)
    ∧ lc_msg r = gc_message c
    ∧ lc_args r = gc_args c
    ∧ ((∃ level, gc_method c = MLog level) →
         Formatter_format other text default_format r = default_format r)
    ∧ ((∀ level, gc_method c ≠ MLog level) →
         (default_format r = "" →
            Formatter_format other text default_format r
            = method_prefix text (gc_method c))
         ∧ (∀ first rest,
              splitlines other (default_format r) = first :: rest →
              Formatter_format other text default_format r
              = method_prefix text (gc_method c) +:+ first
                +:+ continuation rest)).
Proof.
  intros Hkw Hfree. exists (record_of_call c).
  split; [apply Logger_call_effect|]. split; [done|]. split; [done|].
  destruct (record_of_call_tag c Hkw) as [Htag _]. split.
  - intros [level Hm]. unfold Formatter_format. rewrite Htag, Hm. reflexivity.
  - intros Hm.
    assert (Hne : method_tag (gc_method c) ≠ VNone).
    { destruct (gc_method c) eqn:E; try done. by destruct (Hm level). }
    rewrite (Formatter_format_tagged other text default_format _
               (method_tag (gc_method c))) by (by rewrite ?Htag).
    rewrite method_prefix_format by done.
    by apply prefixed_lines.
Qed.

Lemma Logger_call_rendering_witness :
  ∃ r,
    Logger_info (mkLogger "pwnlib") "Hello, world!" [] no_kwargs initial_world
    = (Ok tt, emit r initial_world)
    ∧ Formatter_format bytes_boundary plain_text lc_msg r = "[*] Hello, world!".
Proof.
  destruct (Logger_call_rendering bytes_boundary plain_text lc_msg hello
              initial_world unreserved_no_kwargs eq_refl)
    as (r & Hrun & Hmsg & _ & _ & Hfmt).
  exists r. split; [exact Hrun|].
  destruct Hfmt as [_ Hfmt]; [by intros level|].
  rewrite (Hfmt "Hello, world!" []); [reflexivity|].
  rewrite Hmsg. reflexivity.
Defined.

(** X14.  What the console shows for the records of a [Progress] when
    they are not animated and the caller leaves the reserved keys alone:
    ['[x] '] for a status update, ['[+] '] for [success()] and ['[-] ']
    for [failure()] (with the decorations of the glyph), then the lines
    of the default rendering, the further ones behind a line feed and
    four spaces. *)
Theorem Progress_record_rendering (other : Ascii.ascii → bool)
    (text : TextModule) (default_format : LogCall → string)
    (w : World) (self : loc) (p : Progress) (c : ProgressCall) :
  heap w !! self = Some p →
  emits c p = true →
  unreserved (call_kwargs c) →
  line_free other (call_prefix text c) = true →
  ∃ r w',
    call self c w = (Ok tt, w')
    ∧ sink w' = sink w ++ [r]
    ∧ lc_msg r = composed (_msg p) (call_status c)
    ∧ (default_format r = "" →
         Formatter_format other text default_format r = call_prefix text c)
    ∧ (∀ first rest,
         splitlines other (default_format r) = first :: rest →
         Formatter_format other text default_format r
         = call_prefix text c +:+ first +:+ continuation rest).
Proof.
  intros Hp Hemit [Hmt _] Hfree.
  exists (record_for self p c). eexists.
  split; [by apply call_effect|]. rewrite Hemit. split; [done|]. split; [done|].
  rewrite (Formatter_format_tagged other text default_format _ (VStr (call_tag c)))
    by (by rewrite ?record_for_tag).
  rewrite call_prefix_format. by apply prefixed_lines.
Qed.

Lemma Progress_record_rendering_witness :
  ∃ r w',
    Progress_success 0 "Got a shell!" [] no_kwargs working_world = (Ok tt, w')
    ∧ sink w' = sink working_world ++ [r]
    ∧ Formatter_format bytes_boundary plain_text lc_msg r
      = "[+] Working: Got a shell!".
Proof.
  destruct (Progress_record_rendering bytes_boundary plain_text lc_msg
              working_world 0 working_progress
              (CallSuccess "Got a shell!" [] no_kwargs)
              working_world_heap eq_refl unreserved_no_kwargs eq_refl)
    as (r & w' & Hrun & Hsink & Hmsg & _ & Hfmt).
  exists r, w'. split; [exact Hrun|]. split; [exact Hsink|].
  rewrite (Hfmt "Working: Got a shell!" []); [reflexivity|].
  rewrite Hmsg. reflexivity.
Defined.

Lemma line_free_app other (s1 s2 : string) :
  line_free other (s1 +:+ s2) = line_free other s1 && line_free other s2.
Proof.
  induction s1 as [|c s1 IH]; [reflexivity|].
  change (String c s1 +:+ s2) with (String c (s1 +:+ s2)). simpl.
  by rewrite IH, andb_assoc.
Qed.

(** Every line that [splitlines] returns is free of line boundaries. *)
Lemma splitlines_from_line_free other (s : string) : ∀ cur,
  line_free other cur = true →
  Forall (λ l, line_free other l = true) (splitlines_from other cur s).
Proof.
  induction s as [|c s IH]; intros cur Hcur; simpl.
  - destruct cur; by repeat constructor.
  - destruct (Ascii.eqb c "013") eqn:Hcr.
    { destruct s as [|d s'']; [by repeat constructor|].
      specialize (IH "" eq_refl). simpl in IH.
      destruct (Ascii.eqb d "013") eqn:Hd.
      - assert (Ascii.eqb d "010" = false) as ->.
        { apply Ascii.eqb_eq in Hd as ->. reflexivity. }
        constructor; [done|]. simpl. by rewrite Hd.
      - destruct (Ascii.eqb d "010") eqn:Hnl; simpl in IH.
        + constructor; [done|]. by apply Forall_cons in IH as [_ IH].
        + constructor; [done|]. simpl. by rewrite Hd, Hnl. }
    destruct (Ascii.eqb c "010" || other c) eqn:Hb.
    { constructor; [done|]. by apply IH. }
    apply IH. rewrite line_free_app, Hcur. simpl. unfold is_boundary.
    rewrite Hcr. simpl. by rewrite Hb.
Qed.

Lemma occurs_app c (s1 s2 : string) :
  occurs c (s1 +:+ s2) = occurs c s1 || occurs c s2.
Proof.
  induction s1 as [|a s1 IH]; [reflexivity|].
  change (String a s1 +:+ s2) with (String a (s1 +:+ s2)). simpl.
  rewrite IH. by destruct (Ascii.eqb c a).
Qed.

Lemma line_free_no_cr other (s : string) :
  line_free other s = true → occurs "013" s = false.
Proof.
  induction s as [|c s IH]; [done|].
  change (line_free other (String c s))
    with (negb (is_boundary other c) && line_free other s).
  change (occurs "013" (String c s))
    with (if Ascii.eqb "013" c then true else occurs "013" s).
  intros [Hc Hs]%andb_prop.
  unfold is_boundary in Hc. apply negb_true_iff in Hc.
  apply orb_false_elim in Hc as [Hc _]. apply orb_false_elim in Hc as [Hcr _].
  rewrite Ascii.eqb_sym, Hcr. by apply IH.
Qed.

Lemma join_no_cr other (ls : list string) :
  Forall (λ l, line_free other l = true) ls →
  occurs "013" (join nlindent ls) = false.
Proof.
  induction 1 as [|l ls Hl Hls IH]; [done|].
  destruct ls as [|l' ls'].
  - simpl. by eapply line_free_no_cr.
  - change (join nlindent (l :: l' :: ls'))
      with (l +:+ nlindent +:+ join nlindent (l' :: ls')).
    rewrite !occurs_app, IH, (line_free_no_cr other l Hl). reflexivity.
Qed.

(** X15.  [Formatter.format] normalises the line ends of a tagged
    record: the text it returns is a sequence of lines, none of which
    holds a line boundary, joined by a line feed and four spaces.  So
    the only line boundaries left are those line feeds, each followed by
    four spaces, and no carriage return is left at all, whatever the
    message was.  The prefix is taken to hold no line boundary. *)
Theorem format_normalises_lines (other : Ascii.ascii → bool)
    (text : TextModule) (default_format : LogCall → string)
    (record : LogCall) (msgtype : PyVal) :
  lc_msgtype record = Some msgtype →
  msgtype ≠ VNone →
  line_free other (format_prefix text msgtype) = true →
  ∃ lines,
    Formatter_format other text default_format record = join nlindent lines
    ∧ Forall (λ l, line_free other l = true) lines
    ∧ occurs "013" (Formatter_format other text default_format record) = false.
Proof.
  intros Hmt Hne Hfree.
  exists (splitlines other (format_prefix text msgtype +:+ default_format record)).
  rewrite (Formatter_format_tagged other text default_format record msgtype)
    by (by rewrite ?Hmt).
  assert (Hlines : Forall (λ l, line_free other l = true)
            (splitlines other (format_prefix text msgtype
                               +:+ default_format record)))
    by (by apply splitlines_from_line_free).
  split; [done|]. split; [done|]. by eapply join_no_cr.
Qed.

Lemma format_normalises_lines_witness :
  occurs "013"
    (Formatter_format bytes_boundary plain_text lc_msg
       (tagged_record ("line one" +:+ String "013" (String "010" "line two"))
          "info")) = false
  ∧ Formatter_format bytes_boundary plain_text lc_msg
      (tagged_record ("line one" +:+ String "013" (String "010" "line two"))
         "info")
    = "[*] line one" +:+ String "010"%char "    line two".
Proof.
  destruct (format_normalises_lines bytes_boundary plain_text lc_msg
              (tagged_record ("line one" +:+ String "013" (String "010" "line two"))
                 "info") (VStr "info") eq_refl ltac:(discriminate) eq_refl)
    as (lines & _ & _ & Hcr).
  split; [exact Hcr|]. vm_compute. reflexivity.
Defined.

Lemma splitlines_from_cons other cur c (s : string) :
  splitlines_from other cur (String c s)
  = if Ascii.eqb c "013" then cur :: splitlines_from other "" (skip_line_feed s)
    else if Ascii.eqb c "010" || other c then cur :: splitlines_from other "" s
    else splitlines_from other (cur +:+ String c "") s.
Proof.
  change (splitlines_from other cur (String c s))
    with (if Ascii.eqb c "013"
          then match s with
               | EmptyString => [cur]
               | String d s'' =>
                   if Ascii.eqb d "010" then cur :: splitlines_from other "" s''
                   else cur :: splitlines_from other "" s
               end
          else if Ascii.eqb c "010" || other c
               then cur :: splitlines_from other "" s
               else splitlines_from other (cur +:+ String c "") s).
  destruct (Ascii.eqb c "013"); [|reflexivity].
  destruct s as [|d s'']; [reflexivity|].
  unfold skip_line_feed. destruct (Ascii.eqb d "010"); reflexivity.
Qed.

Lemma splitlines_from_final_newline other (s : string) : ∀ cur,
  (s = "" ∧ cur ≠ "") ∨ open_end other s = true →
  splitlines_from other cur (s +:+ String "010" "")
  = splitlines_from other cur s.
Proof.
  induction s as [|c s IH]; intros cur Hend.
  - destruct Hend as [[_ Hcur]|?]; [|done]. simpl. by destruct cur.
  - destruct Hend as [[? _]|Hend]; [done|].
    change (String c s +:+ String "010" "") with (String c (s +:+ String "010" "")).
    rewrite !splitlines_from_cons.
    destruct (Ascii.eqb c "013") eqn:Hcr.
    { f_equal. destruct s as [|d s'']; [reflexivity|].
      change (open_end other (String c (String d s'')))
        with (open_end other (String d s'')) in Hend.
      specialize (IH "" (or_intror Hend)).
      change (String d s'' +:+ String "010" "")
        with (String d (s'' +:+ String "010" "")) in IH |- *.
      unfold skip_line_feed. destruct (Ascii.eqb d "010") eqn:Hnl; [|exact IH].
      rewrite !splitlines_from_cons in IH. rewrite Hnl in IH.
      assert (Ascii.eqb d "013" = false) as Hd.
      { apply Ascii.eqb_eq in Hnl as ->. reflexivity. }
      rewrite Hd in IH. simpl in IH. by injection IH. }
    destruct (Ascii.eqb c "010" || other c) eqn:Hb.
    { f_equal. apply IH. right. destruct s; [|done].
      simpl in Hend. by rewrite Hb in Hend. }
    apply IH. destruct s as [|d s'']; [left|by right].
    split; [done|]. apply append_cons_nonempty.
Qed.

(** X16.  A final line feed in the message of a tagged record changes
    nothing: the record is rendered like the record whose message lacks
    it.  This holds when the message ends in a character that is no line
    feed or other boundary (a carriage return will do), and for the
    empty message when the prefix is not empty.  The prefix is taken to
    hold no line boundary. *)
Theorem format_drops_final_newline (other : Ascii.ascii → bool)
    (text : TextModule) (default_format : LogCall → string)
    (record record' : LogCall) (msgtype : PyVal) :
  lc_msgtype record = Some msgtype →
  lc_msgtype record' = Some msgtype →
  msgtype ≠ VNone →
  line_free other (format_prefix text msgtype) = true →
  default_format record' = default_format record +:+ String "010" "" →
  (default_format record = "" ∧ format_prefix text msgtype ≠ "")
  ∨ open_end other (default_format record) = true →
  Formatter_format other text default_format record'
  = Formatter_format other text default_format record.
Proof.
  intros Hmt Hmt' Hne Hfree Hmsg Hend.
  rewrite !(Formatter_format_tagged other text default_format _ msgtype)
    by (by rewrite ?Hmt, ?Hmt').
  rewrite Hmsg. unfold splitlines.
  rewrite (splitlines_from_prefix other _ "" (default_format record)) by done.
  rewrite (splitlines_from_prefix other _ "" (_ +:+ _)) by done.
  rewrite splitlines_from_final_newline; [done|].
  destruct Hend as [[-> Hp]|Hend]; [left|by right]. by split.
Qed.

Lemma format_drops_final_newline_witness :
  Formatter_format bytes_boundary plain_text lc_msg
    (tagged_record ("Hello, world!" +:+ String "010" "") "info")
  = Formatter_format bytes_boundary plain_text lc_msg
      (tagged_record "Hello, world!" "info").
Proof.
  apply (format_drops_final_newline bytes_boundary plain_text lc_msg
           (tagged_record "Hello, world!" "info")
           (tagged_record ("Hello, world!" +:+ String "010" "") "info")
           (VStr "info")); try reflexivity; [discriminate|by right].
Defined.

(** ** [Handler.emit] *)

Section Handler_facts.

Variable other : Ascii.ascii → bool.
Variable text : TextModule.
Variable default_format : LogCall → string.

Local Abbreviation emit1 := (Handler_emit other text default_format).
Local Abbreviation emit_all := (Handler_emits other text default_format).
Local Abbreviation atext := (animated_text other text default_format).

Lemma Handler_emit_forward term_mode record k :
  term_mode = false ∨ default VNone (lc_progress record) = VNone →
  emit1 term_mode record k = (Returned, record, stream_emit record k).
Proof.
  intros H. unfold Handler_emit.
  destruct H as [-> | ->]; [by rewrite orb_true_r|done].
Qed.

Lemma Handler_emit_status_new record k l :
  lc_progress record = Some (VRef l) →
  lc_msgtype record = Some (VStr "status") →
  spinner_attrs k !! l = None →
  emit1 true record k
  = (Returned, animated record, create_spinner l (atext record) k).
Proof.
  intros Hpr Hmt Hnone. unfold Handler_emit. rewrite Hpr, Hmt. simpl.
  rewrite Hnone. reflexivity.
Qed.

Lemma Handler_emit_status_old record k l sp :
  lc_progress record = Some (VRef l) →
  lc_msgtype record = Some (VStr "status") →
  spinner_attrs k !! l = Some sp →
  emit1 true record k
  = (Returned, animated record, handle_update (_msg_handle sp) (atext record) k).
Proof.
  intros Hpr Hmt Hsome. unfold Handler_emit. rewrite Hpr, Hmt. simpl.
  rewrite Hsome. reflexivity.
Qed.

(** The console after [create_spinner], spelled out. *)
Lemma create_spinner_eq l msg k :
  let hs : handle := fresh (dom (lines k)) in
  let hm : handle := fresh (dom (<[hs := Text ""]> (lines k))) in
  let e : nat := fresh (dom (events k)) in
  let t : nat := fresh (dom (threads k)) in
  create_spinner l msg k
  = {| lines := <[hs := Frames]> (<[hm := Text msg]> (<[hs := Text ""]> (lines k)));
       events := <[e := false]> (events k);
       threads := <[t := mkThread hs e true]> (threads k);
       spinner_attrs := <[l := mkSpinner hs hm e t]> (spinner_attrs k);
       stream := stream k |}.
Proof. reflexivity. Qed.

Lemma fresh_handles k :
  let hs : handle := fresh (dom (lines k)) in
  let hm : handle := fresh (dom (<[hs := Text ""]> (lines k))) in
  lines k !! hs = None ∧ lines k !! hm = None ∧ hs ≠ hm.
Proof.
  intros hs hm.
  assert (H1 : hs ∉ dom (lines k)) by apply is_fresh.
  assert (H2 : hm ∉ dom (<[hs := Text ""]> (lines k))) by apply is_fresh.
  rewrite dom_insert_L in H2.
  split; [by apply not_elem_of_dom|]. split.
  - apply not_elem_of_dom. set_solver.
  - set_solver.
Qed.

Lemma create_spinner_lines l msg k h x :
  lines k !! h = Some x → lines (create_spinner l msg k) !! h = Some x.
Proof.
  intros Hh. rewrite create_spinner_eq. simpl.
  destruct (fresh_handles k) as (H1 & H2 & _).
  rewrite !lookup_insert_ne; [done|congruence..].
Qed.

Lemma create_spinner_events l msg k e x :
  events k !! e = Some x → events (create_spinner l msg k) !! e = Some x.
Proof.
  intros He. rewrite create_spinner_eq. simpl.
  assert (H1 : fresh (dom (events k)) ∉ dom (events k)) by apply is_fresh.
  apply not_elem_of_dom in H1. rewrite lookup_insert_ne; [done|congruence].
Qed.

Lemma create_spinner_threads l msg k t x :
  threads k !! t = Some x → threads (create_spinner l msg k) !! t = Some x.
Proof.
  intros Ht. rewrite create_spinner_eq. simpl.
  assert (H1 : fresh (dom (threads k)) ∉ dom (threads k)) by apply is_fresh.
  apply not_elem_of_dom in H1. rewrite lookup_insert_ne; [done|congruence].
Qed.

Lemma create_spinner_animating l msg k :
  animating (create_spinner l msg k) l msg.
Proof.
  rewrite create_spinner_eq. destruct (fresh_handles k) as (H1 & H2 & Hne).
  eexists. simpl. split; [apply lookup_insert_eq|]. simpl.
  split; [done|]. split; [apply lookup_insert_eq|]. split.
  { rewrite lookup_insert_ne by done. apply lookup_insert_eq. }
  split; apply lookup_insert_eq.
Qed.

Lemma create_spinner_ok l msg k :
  console_ok k → spinner_attrs k !! l = None →
  console_ok (create_spinner l msg k).
Proof.
  intros [Hown Hsep] Hnone.
  destruct (fresh_handles k) as (H1 & H2 & Hne).
  assert (He : events k !! fresh (dom (events k)) = None)
    by apply not_elem_of_dom, is_fresh.
  assert (Ht : threads k !! fresh (dom (threads k)) = None)
    by apply not_elem_of_dom, is_fresh.
  pose proof (create_spinner_lines l msg k) as Hlines.
  pose proof (create_spinner_events l msg k) as Hevents.
  pose proof (create_spinner_threads l msg k) as Hthreads.
  pose proof (create_spinner_animating l msg k) as (sp0 & Hsp0 & Hd0 & Hf0 & Hm0 & Ht0 & He0).
  assert (Hattrs : spinner_attrs (create_spinner l msg k)
                   = <[l := sp0]> (spinner_attrs k)).
  { rewrite create_spinner_eq in Hsp0 |- *. simpl in *.
    rewrite lookup_insert_eq in Hsp0. by injection Hsp0 as <-. }
  assert (Hsp0' : sp0 = mkSpinner (fresh (dom (lines k)))
                          (fresh (dom (<[fresh (dom (lines k)) := Text ""]> (lines k))))
                          (fresh (dom (events k))) (fresh (dom (threads k)))).
  { rewrite create_spinner_eq in Hsp0. simpl in Hsp0.
    rewrite lookup_insert_eq in Hsp0. by injection Hsp0 as <-. }
  assert (Hold : ∀ l' sp, l' ≠ l → spinner_attrs k !! l' = Some sp →
            _spinner_handle sp0 ≠ _spinner_handle sp
            ∧ _spinner_handle sp0 ≠ _msg_handle sp
            ∧ _msg_handle sp0 ≠ _spinner_handle sp
            ∧ _msg_handle sp0 ≠ _msg_handle sp
            ∧ _spinner_thread sp0 ≠ _spinner_thread sp
            ∧ _stop_event sp0 ≠ _stop_event sp).
  { intros l' sp Hl' Hsp.
    destruct (Hown l' sp Hsp) as (_ & [x1 Hx1] & [x2 Hx2] & a & Hth & Hev & _).
    subst sp0. simpl. repeat split; congruence. }
  split.
  - intros l' sp. rewrite Hattrs. destruct (decide (l = l')) as [<-|Hl'].
    + rewrite lookup_insert_eq. intros [= <-].
      split; [done|]. split; [by eexists|]. split; [by eexists|].
      exists true. by repeat split.
    + rewrite lookup_insert_ne by done. intros Hsp.
      destruct (Hown l' sp Hsp) as (Hd & [x1 Hx1] & [x2 Hx2] & a & Hth & Hev & Hfr).
      split; [done|]. split; [eexists; by apply Hlines|].
      split; [eexists; by apply Hlines|].
      exists a. split; [by apply Hthreads|]. split; [by apply Hevents|].
      intros Ha. by apply Hlines, Hfr.
  - intros l1 l2 sp1 sp2 Hl. rewrite Hattrs.
    destruct (decide (l = l1)) as [<-|Hl1]; destruct (decide (l = l2)) as [<-|Hl2];
      try done.
    + rewrite lookup_insert_eq, lookup_insert_ne by done. intros [= <-] Hsp2.
      destruct (Hold l2 sp2 ltac:(done) Hsp2) as (? & ? & ? & ? & ? & ?).
      by repeat split.
    + rewrite lookup_insert_ne, lookup_insert_eq by done. intros Hsp1 [= <-].
      destruct (Hold l1 sp1 ltac:(done) Hsp1) as (? & ? & ? & ? & ? & ?).
      by repeat split.
    + rewrite !lookup_insert_ne by done. by apply Hsep.
Qed.

Lemma Handler_emit_animated record k l msgtype :
  lc_progress record = Some (VRef l) →
  lc_msgtype record = Some msgtype →
  emit1 true record k
  = finish_spinner text l msgtype (animated record)
      (prepare_spinner l (atext record) k).
Proof.
  intros Hpr Hmt. unfold Handler_emit, prepare_spinner, finish_spinner.
  rewrite Hpr, Hmt. simpl. by destruct (spinner_attrs k !! l).
Qed.

Lemma prepare_spinner_attrs l msg k :
  ∃ sp, spinner_attrs (prepare_spinner l msg k) !! l = Some sp.
Proof.
  unfold prepare_spinner. destruct (spinner_attrs k !! l) as [sp|] eqn:E.
  - by exists sp.
  - rewrite create_spinner_eq. simpl. eexists. apply lookup_insert_eq.
Qed.

Lemma prepare_spinner_stream l msg k :
  stream (prepare_spinner l msg k) = stream k.
Proof.
  unfold prepare_spinner. by destruct (spinner_attrs k !! l).
Qed.

Lemma prepare_spinner_ok l msg k :
  console_ok k → console_ok (prepare_spinner l msg k).
Proof.
  intros Hok. unfold prepare_spinner.
  destruct (spinner_attrs k !! l) as [sp|] eqn:E; [|by apply create_spinner_ok].
  destruct Hok as [Hown Hsep].
  destruct (Hown l sp E) as (Hd & _).
  split.
  - intros l' sp' Hsp'. simpl in Hsp'. simpl.
    destruct (Hown l' sp' Hsp') as (Hd' & [x1 Hx1] & [x2 Hx2] & a & Hth & Hev & Hfr).
    assert (Hne : _msg_handle sp ≠ _spinner_handle sp').
    { destruct (decide (l' = l)) as [->|Hl']; [congruence|].
      destruct (Hsep l' l sp' sp Hl' Hsp' E) as (_ & ? & _). congruence. }
    split; [done|]. split; [rewrite lookup_insert_ne by done; by eexists|].
    split.
    { destruct (decide (_msg_handle sp = _msg_handle sp')) as [->|Hm].
      - rewrite lookup_insert_eq. by eexists.
      - rewrite lookup_insert_ne by done. by eexists. }
    exists a. split; [done|]. split; [done|].
    intros Ha. rewrite lookup_insert_ne by done. by apply Hfr.
  - intros l1 l2 sp1 sp2 Hl H1 H2. by apply (Hsep l1 l2).
Qed.

Lemma prepare_spinner_animating l msg k :
  spinner_attrs k !! l = None ∨ (∃ msg0, animating k l msg0) →
  animating (prepare_spinner l msg k) l msg.
Proof.
  unfold prepare_spinner. intros [Hnone|[msg0 Han]].
  - rewrite Hnone. apply create_spinner_animating.
  - destruct Han as (sp & Hsp & Hd & Hf & Hm & Ht & He). rewrite Hsp.
    exists sp. simpl. split; [done|]. split; [done|].
    split; [by rewrite lookup_insert_ne|]. split; [apply lookup_insert_eq|done].
Qed.

Lemma thread_join_after_set sp a k :
  threads k !! _spinner_thread sp
  = Some (mkThread (_spinner_handle sp) (_stop_event sp) a) →
  thread_join (_spinner_thread sp) (event_set (_stop_event sp) k)
  = Some (stopped_console sp k).
Proof.
  intros Hth. unfold thread_join. simpl. rewrite Hth. simpl.
  destruct a; simpl.
  - by rewrite lookup_insert_eq.
  - unfold stopped_console. by rewrite (insert_id (threads k)).
Qed.

Lemma stopped_console_ok sp l k :
  console_ok k → spinner_attrs k !! l = Some sp →
  console_ok (stopped_console sp k).
Proof.
  intros [Hown Hsep] Hsp. split; [|done].
  intros l' sp' Hsp'. simpl in Hsp'. simpl.
  destruct (Hown l' sp' Hsp') as (Hd' & H1 & H2 & a & Hth & Hev & Hfr).
  split; [done|]. split; [done|]. split; [done|].
  destruct (decide (l' = l)) as [->|Hl'].
  - assert (sp' = sp) as -> by congruence.
    exists false. rewrite !lookup_insert_eq. by repeat split.
  - destruct (Hsep l' l sp' sp Hl' Hsp' Hsp) as (_ & _ & _ & Ht & He).
    exists a. rewrite !lookup_insert_ne by done. by repeat split.
Qed.

Lemma settle_ok sp l prefix k :
  console_ok k → spinner_attrs k !! l = Some sp →
  threads k !! _spinner_thread sp
  = Some (mkThread (_spinner_handle sp) (_stop_event sp) false) →
  console_ok (handle_update (_spinner_handle sp) prefix k).
Proof.
  intros [Hown Hsep] Hsp Hdead. split; [|done].
  intros l' sp' Hsp'. simpl in Hsp'. simpl.
  destruct (Hown l' sp' Hsp') as (Hd' & [x1 Hx1] & [x2 Hx2] & a & Hth & Hev & Hfr).
  split; [done|].
  assert (Hany : ∀ h, is_Some (lines k !! h) →
            is_Some (<[_spinner_handle sp := Text prefix]> (lines k) !! h)).
  { intros h Hh. destruct (decide (_spinner_handle sp = h)) as [->|Hne].
    - rewrite lookup_insert_eq. by eexists.
    - by rewrite lookup_insert_ne. }
  split; [by apply Hany; eexists|]. split; [by apply Hany; eexists|].
  exists a. split; [done|]. split; [done|]. intros ->.
  destruct (decide (l' = l)) as [->|Hl'].
  - assert (sp' = sp) as -> by congruence. congruence.
  - destruct (Hsep l' l sp' sp Hl' Hsp' Hsp) as (Hne & _).
    rewrite lookup_insert_ne by done. by apply Hfr.
Qed.

Lemma console_ok_grown k k' :
  console_ok k →
  (∀ h x, lines k !! h = Some x → lines k' !! h = Some x) →
  (∀ e x, events k !! e = Some x → events k' !! e = Some x) →
  (∀ t x, threads k !! t = Some x → threads k' !! t = Some x) →
  spinner_attrs k' = spinner_attrs k →
  console_ok k'.
Proof.
  intros [Hown Hsep] Hlines Hevents Hthreads Hattrs. split.
  - intros l sp. rewrite Hattrs. intros Hsp.
    destruct (Hown l sp Hsp) as (Hd & [x1 Hx1] & [x2 Hx2] & a & Hth & Hev & Hfr).
    split; [done|]. split; [eexists; by apply Hlines|].
    split; [eexists; by apply Hlines|].
    exists a. split; [by apply Hthreads|]. split; [by apply Hevents|].
    intros Ha. by apply Hlines, Hfr.
  - intros l1 l2 sp1 sp2 Hl. rewrite Hattrs. by apply Hsep.
Qed.

Lemma finish_spinner_ok l msgtype record k :
  console_ok k →
  is_Some (spinner_attrs k !! l) →
  console_ok (finish_spinner text l msgtype record k).2
  ∧ (finish_spinner text l msgtype record k).1.1 ≠ Blocked.
Proof.
  intros Hok [sp Hsp]. unfold finish_spinner.
  destruct (bool_decide (msgtype ≠ VStr "status")); [|done].
  rewrite Hsp. destruct Hok as [Hown Hsep].
  destruct (Hown l sp Hsp) as (_ & _ & _ & a & Hth & _).
  rewrite (thread_join_after_set sp a k Hth).
  assert (Hstopped : console_ok (stopped_console sp k))
    by (by apply (stopped_console_ok sp l)).
  assert (Hsettled : ∀ prefix,
            console_ok (handle_update (_spinner_handle sp) prefix
                          (stopped_console sp k))).
  { intros prefix. apply (settle_ok sp l); [done|done|]. simpl.
    apply lookup_insert_eq. }
  destruct msgtype as [|t| |]; try done.
  destruct (_msgtype_prefixes text !! t); [|done]. split; [apply Hsettled|done].
Qed.

Lemma Handler_emit_ok term_mode record k :
  console_ok k →
  console_ok (emit1 term_mode record k).2
  ∧ (emit1 term_mode record k).1.1 ≠ Blocked.
Proof.
  intros Hok.
  destruct (decide (term_mode = false ∨ default VNone (lc_progress record) = VNone))
    as [Hfwd|Hanim].
  { rewrite Handler_emit_forward by done. split; [|done]. simpl.
    by apply (console_ok_grown k). }
  assert (term_mode = true) as -> by (destruct term_mode; tauto).
  destruct (lc_progress record) as [progress|] eqn:Hpr; [|simpl in Hanim; tauto].
  simpl in Hanim.
  destruct (lc_msgtype record) as [msgtype|] eqn:Hmt.
  2:{ unfold Handler_emit. rewrite Hpr, Hmt. simpl.
      destruct (bool_decide (progress = VNone)); done. }
  destruct progress as [|s|z|l]; [tauto| | |].
  - unfold Handler_emit. rewrite Hpr, Hmt. simpl. split; [|done].
    apply (console_ok_grown k); [done|..|done]; simpl.
    + apply (create_spinner_lines 0).
    + apply (create_spinner_events 0 "").
    + apply (create_spinner_threads 0 "").
  - unfold Handler_emit. rewrite Hpr, Hmt. simpl. split; [|done].
    apply (console_ok_grown k); [done|..|done]; simpl.
    + apply (create_spinner_lines 0).
    + apply (create_spinner_events 0 "").
    + apply (create_spinner_threads 0 "").
  - rewrite (Handler_emit_animated record k l msgtype Hpr Hmt).
    apply finish_spinner_ok; [by apply prepare_spinner_ok|].
    destruct (prepare_spinner_attrs l (atext record) k) as [sp Hsp]. by eexists.
Qed.

Lemma Handler_emits_ok term_mode records : ∀ k,
  console_ok k →
  console_ok (emit_all term_mode records k).2
  ∧ (emit_all term_mode records k).1 ≠ Blocked.
Proof.
  induction records as [|r rs IH]; intros k Hok; [done|]. simpl.
  destruct (Handler_emit_ok term_mode r k Hok) as [Hok' Hnb].
  destruct (emit1 term_mode r k) as [[o r'] k']. simpl in *.
  destruct o; [by apply IH|done..].
Qed.



Lemma finish_spinner_key_error l msgtype msg record k :
  animating k l msg →
  msgtype ≠ VStr "status" →
  (∀ t, msgtype = VStr t → _msgtype_prefixes text !! t = None) →
  ∃ k', finish_spinner text l msgtype record k
        = (Raised (KeyError msgtype), record, k')
      ∧ frozen k' l msg
      ∧ stream k' = stream k.
Proof.
  intros (sp & Hsp & Hd & Hf & Hm & Hth & Hev) Hne Hkey. unfold finish_spinner.
  rewrite bool_decide_true by done. rewrite Hsp.
  rewrite (thread_join_after_set sp true k Hth).
  assert (Hfrozen : frozen (stopped_console sp k) l msg).
  { exists sp. simpl. split; [done|]. split; [done|]. split; [done|].
    split; apply lookup_insert_eq. }
  destruct msgtype as [|t| |]; try (by eexists).
  rewrite (Hkey t eq_refl). by eexists.
Qed.




End Handler_facts.

Lemma empty_console_ok : console_ok empty_console.
Proof. split; intros *; by rewrite ?lookup_empty. Qed.

(** X17.  The bookkeeping of [Handler.emit] stays sound whatever records
    it is given, with or without a [Progress], in either mode and
    whatever their tags: every job that has a spinner has two different
    lines of the terminal, a thread that is alive exactly as long as its
    stop event is not set and that owns the spinner line while it is
    alive; and no two jobs share a line, a thread or an event.  [emit]
    never waits for a thread whose stop event is not set. *)
Theorem console_bookkeeping (other : Ascii.ascii → bool) (text : TextModule)
    (default_format : LogCall → string) (term_mode : bool)
    (records : list LogCall) (k : Console) :
  console_ok k →
  console_ok (Handler_emits other text default_format term_mode records k).2
  ∧ (Handler_emits other text default_format term_mode records k).1 ≠ Blocked
  ∧ ∀ r, console_ok (Handler_emit other text default_format term_mode r k).2
         ∧ (Handler_emit other text default_format term_mode r k).1.1 ≠ Blocked.
Proof.
  intros Hok.
  destruct (Handler_emits_ok other text default_format term_mode records k Hok).
  split; [done|]. split; [done|]. intros r. by apply Handler_emit_ok.
Qed.

Lemma console_bookkeeping_witness :
  console_ok
    (Handler_emits bytes_boundary plain_text lc_msg true
       (sink (calls 0 [CallStatus 1700000000 "At 0" [] no_kwargs;
                       CallSuccess "Done" [] no_kwargs] working_world).2)
       empty_console).2.
Proof.
  apply (console_bookkeeping bytes_boundary plain_text lc_msg true
           (sink (calls 0 [CallStatus 1700000000 "At 0" [] no_kwargs;
                           CallSuccess "Done" [] no_kwargs] working_world).2)
           empty_console empty_console_ok).
Defined.



(** X19.  Without animation, [Handler.emit] is the stream handler: when
    the terminal is not in [term_mode], or for records that carry no
    [Progress], every record goes to the stream, in order and unchanged,
    and no line, event, thread or spinner is created or touched. *)
Theorem Handler_emits_plain (other : Ascii.ascii → bool) (text : TextModule)
    (default_format : LogCall → string) (term_mode : bool)
    (records : list LogCall) (k : Console) :
  Forall (λ r, term_mode = false ∨ default VNone (lc_progress r) = VNone)
    records →
  Handler_emits other text default_format term_mode records k
  = (Returned, {| lines := lines k; events := events k; threads := threads k;
                  spinner_attrs := spinner_attrs k;
                  stream := stream k ++ records |})
  ∧ Forall (λ r, (Handler_emit other text default_format term_mode r k).1
                 = (Returned, r)) records.
Proof.
  intros Hall. split.
  - revert k. induction Hall as [|r rs Hr _ IH]; intros k.
    + simpl. rewrite app_nil_r. by destruct k.
    + simpl. rewrite Handler_emit_forward by done. rewrite IH. simpl.
      by rewrite <- app_assoc.
  - eapply Forall_impl; [exact Hall|]. intros r Hr.
    by rewrite Handler_emit_forward.
Qed.

Lemma Handler_emits_plain_witness :
  Handler_emits bytes_boundary plain_text lc_msg false
    (working_updates ++ [working_final]) empty_console
  = (Returned, {| lines := ∅; events := ∅; threads := ∅; spinner_attrs := ∅;
                  stream := working_updates ++ [working_final] |}).
Proof.
  apply (Handler_emits_plain bytes_boundary plain_text lc_msg false
           (working_updates ++ [working_final]) empty_console).
  repeat constructor.
Defined.

(** X20.  [emit] raises [KeyError] for an animated record whose tag is
    neither ['status'] nor a key of the prefix table (['indented'], no
    tag at all, ...), and it does so after it has stopped the animator:
    the message line shows the text of the record, the thread has ended,
    and the spinner line is left with the last frame that was drawn. *)
Theorem animated_unknown_tag (other : Ascii.ascii → bool) (text : TextModule)
    (default_format : LogCall → string) (l : loc) (record : LogCall)
    (msgtype : PyVal) (k : Console) :
  lc_progress record = Some (VRef l) →
  lc_msgtype record = Some msgtype →
  msgtype ≠ VStr "status" →
  (∀ t, msgtype = VStr t → _msgtype_prefixes text !! t = None) →
  spinner_attrs k !! l = None ∨ (∃ msg0, animating k l msg0) →
  ∃ k',
    Handler_emit other text default_format true record k
    = (Raised (KeyError msgtype), animated record, k')
    ∧ frozen k' l (animated_text other text default_format record)
    ∧ stream k' = stream k.
Proof.
  intros Hpr Hmt Hne Hkey Hstart.
  rewrite (Handler_emit_animated other text default_format record k l _ Hpr Hmt).
  pose proof (prepare_spinner_animating l
                (animated_text other text default_format record) k Hstart) as Han.
  destruct (finish_spinner_key_error text l msgtype _ (animated record) _ Han Hne Hkey)
    as (k' & Hfin & Hfrozen & Hst).
  exists k'. split; [done|]. split; [done|]. by rewrite Hst, prepare_spinner_stream.
Qed.

Lemma animated_unknown_tag_witness :
  ∃ k',
    Handler_emit bytes_boundary plain_text lc_msg true indented_job_record
      empty_console
    = (Raised (KeyError (VStr "indented")), animated indented_job_record, k')
    ∧ frozen k' 0 ("x" +:+ String "010" "").
Proof.
  destruct (animated_unknown_tag bytes_boundary plain_text lc_msg 0
              indented_job_record (VStr "indented") empty_console)
    as (k' & Hrun & Hfrozen & _).
  - reflexivity.
  - reflexivity.
  - discriminate.
  - intros t [= <-]. reflexivity.
  - by left.
  - exists k'. split; [exact Hrun|exact Hfrozen].
Defined.

(** X21.  On the animated path [emit] overwrites the tag of the record
    it was given with ['animated'], whatever the outcome of the call,
    and leaves its other attributes, its message and its arguments
    alone; a record on the other path leaves [emit] unchanged.  Handlers
    that run later therefore no longer see whether an animated record
    was a status update, a success or a failure, and the formatter of
    this module renders it without any prefix. *)
Theorem emit_overwrites_tag (other : Ascii.ascii → bool) (text : TextModule)
    (default_format : LogCall → string) (l : loc) (record : LogCall)
    (msgtype : PyVal) (k : Console) :
  lc_progress record = Some (VRef l) →
  lc_msgtype record = Some msgtype →
  ∃ o record' k',
    Handler_emit other text default_format true record k = (o, record', k')
    ∧ lc_msgtype record' = Some (VStr "animated")
    ∧ lc_progress record' = Some (VRef l)
    ∧ (∀ key, key ≠ "pwnlib_msgtype" → lc_attr key record' = lc_attr key record)
    ∧ lc_msg record' = lc_msg record
    ∧ lc_args record' = lc_args record
    ∧ lc_level record' = lc_level record
    ∧ Formatter_format other text default_format record'
      = join nlindent (splitlines other (default_format record'))
    ∧ (Handler_emit other text default_format false record k).1
      = (Returned, record).
Proof.
  intros Hpr Hmt.
  assert (Hattr : ∀ key, key ≠ "pwnlib_msgtype" →
            lc_attr key (animated record) = lc_attr key record).
  { intros key Hkey. unfold lc_attr, animated, set_record_attr. simpl.
    rewrite lookup_insert_ne by done.
    unfold lc_msgtype, lc_attr in Hmt.
    destruct (kw_extra (lc_kwargs record)); [done|discriminate]. }
  assert (Htag : lc_msgtype (animated record) = Some (VStr "animated")).
  { unfold lc_msgtype, lc_attr, animated, set_record_attr. simpl.
    apply lookup_insert_eq. }
  exists (finish_spinner text l msgtype (animated record)
            (prepare_spinner l (animated_text other text default_format record) k)).1.1,
    (animated record),
    (finish_spinner text l msgtype (animated record)
       (prepare_spinner l (animated_text other text default_format record) k)).2.
  split.
  { rewrite (Handler_emit_animated other text default_format record k l _ Hpr Hmt).
    unfold finish_spinner.
    destruct (bool_decide (msgtype ≠ VStr "status")); [|done].
    destruct (spinner_attrs _ !! l); [|done].
    destruct (thread_join _ _); [|done].
    destruct msgtype as [|t| |]; try done.
    by destruct (_msgtype_prefixes text !! t). }
  split; [done|]. split.
  { unfold lc_progress. rewrite Hattr by done. exact Hpr. }
  split; [done|]. split; [done|]. split; [done|]. split; [done|]. split.
  - unfold Formatter_format. rewrite Htag. reflexivity.
  - by rewrite Handler_emit_forward by (by left).
Qed.

Lemma emit_overwrites_tag_witness :
  ∃ o record' k',
    Handler_emit bytes_boundary plain_text lc_msg true working_final
      empty_console = (o, record', k')
    ∧ lc_msgtype working_final = Some (VStr "success")
    ∧ lc_msgtype record' = Some (VStr "animated").
Proof.
  destruct (emit_overwrites_tag bytes_boundary plain_text lc_msg 0
              working_final (VStr "success") empty_console eq_refl eq_refl)
    as (o & r' & k' & Hrun & Htag & _).
  exists o, r', k'. split; [exact Hrun|]. split; [reflexivity|exact Htag].
Defined.

(** ** A [with] block in animation mode *)




